(** * ObscureBase: the EncryptedDocumentVault registry and the client envelope

    A shallow embedding of [EncryptedDocumentVault] (the Solidity contract that
    keeps document records, the owner and share indexes and the handle of the
    encrypted access key) and of [utils/crypto.ts] (the AES-GCM envelope that
    protects document bodies on the client), followed by the properties the
    specification states about them. *)

From stdpp Require Import gmap strings list sorting.
From Stdlib Require Import NArith Lia Sorted.

Local Open Scope N_scope.

(** ** Solidity value types *)

Abbreviation uint256 := N (only parsing).
Abbreviation address := N (only parsing).
(** [eaddress] and [externalEaddress] are [bytes32] handles. *)
Abbreviation eaddress := N (only parsing).
Abbreviation externalEaddress := N (only parsing).
Abbreviation bytes := (list Byte.byte) (only parsing).

(** [type(uint256).max] *)
Definition MAX_UINT256 : N := 2 ^ 256 - 1.

(** [address(0)] *)
Definition address0 : N := 0.

(** ** Contract storage *)

Record Document := {
  owner : address;
  name : string;
  encryptedBody : string;
  accessKey : eaddress;
  createdAt : uint256;
  updatedAt : uint256;
  lastEditorBlock : uint256
}.

(** The value every slot of [mapping(uint256 => Document)] holds before it is
    written. *)
Definition zeroDocument : Document :=
  {| owner := address0; name := ""; encryptedBody := ""; accessKey := 0;
     createdAt := 0; updatedAt := 0; lastEditorBlock := 0 |}.

Inductive Event :=
| DocumentCreated (documentId : uint256) (creator : address) (title : string)
| DocumentUpdated (documentId : uint256) (editor : address) (body : string)
| AccessGranted (documentId : uint256) (grantee : address).

(** The calls the contract makes into the FHE library, in the order made. *)
Inductive FheCall :=
| FromExternal (handle : externalEaddress) (inputProof : bytes) (user : address)
| AllowThis (handle : eaddress)
| Allow (handle : eaddress) (account : address).

(** The contract's storage ([_nextId] ... [_isSharedWith]), the permission
    table of the engine ([acl], [fheCalls]) and the event log ([logs]).  A
    Solidity mapping is a [gmap] read with the zero value as default. *)
Record State := {
  _nextId : uint256;
  _documents : gmap N Document;
  _ownedDocuments : gmap N (list N);
  _sharedDocuments : gmap N (list N);
  _isSharedWith : gmap N (gmap N bool);
  acl : gset (N * N);
  fheCalls : list FheCall;
  logs : list Event
}.

(** [uint256 private _nextId = 1;] and empty mappings. *)
Definition initial : State :=
  {| _nextId := 1; _documents := ∅; _ownedDocuments := ∅; _sharedDocuments := ∅;
     _isSharedWith := ∅; acl := ∅; fheCalls := []; logs := [] |}.

Definition set_nextId (v : uint256) (s : State) : State :=
  {| _nextId := v; _documents := _documents s; _ownedDocuments := _ownedDocuments s;
     _sharedDocuments := _sharedDocuments s; _isSharedWith := _isSharedWith s;
     acl := acl s; fheCalls := fheCalls s; logs := logs s |}.

Definition set_documents (v : gmap N Document) (s : State) : State :=
  {| _nextId := _nextId s; _documents := v; _ownedDocuments := _ownedDocuments s;
     _sharedDocuments := _sharedDocuments s; _isSharedWith := _isSharedWith s;
     acl := acl s; fheCalls := fheCalls s; logs := logs s |}.

Definition set_ownedDocuments (v : gmap N (list N)) (s : State) : State :=
  {| _nextId := _nextId s; _documents := _documents s; _ownedDocuments := v;
     _sharedDocuments := _sharedDocuments s; _isSharedWith := _isSharedWith s;
     acl := acl s; fheCalls := fheCalls s; logs := logs s |}.

Definition set_sharedDocuments (v : gmap N (list N)) (s : State) : State :=
  {| _nextId := _nextId s; _documents := _documents s; _ownedDocuments := _ownedDocuments s;
     _sharedDocuments := v; _isSharedWith := _isSharedWith s;
     acl := acl s; fheCalls := fheCalls s; logs := logs s |}.

Definition set_isSharedWith (v : gmap N (gmap N bool)) (s : State) : State :=
  {| _nextId := _nextId s; _documents := _documents s; _ownedDocuments := _ownedDocuments s;
     _sharedDocuments := _sharedDocuments s; _isSharedWith := v;
     acl := acl s; fheCalls := fheCalls s; logs := logs s |}.

Definition set_engine (a : gset (N * N)) (c : list FheCall) (s : State) : State :=
  {| _nextId := _nextId s; _documents := _documents s; _ownedDocuments := _ownedDocuments s;
     _sharedDocuments := _sharedDocuments s; _isSharedWith := _isSharedWith s;
     acl := a; fheCalls := c; logs := logs s |}.

Definition set_logs (v : list Event) (s : State) : State :=
  {| _nextId := _nextId s; _documents := _documents s; _ownedDocuments := _ownedDocuments s;
     _sharedDocuments := _sharedDocuments s; _isSharedWith := _isSharedWith s;
     acl := acl s; fheCalls := fheCalls s; logs := v |}.

(** Storage reads: an unwritten slot reads as zero. *)
Definition documentAt (s : State) (documentId : uint256) : Document :=
  default zeroDocument (_documents s !! documentId).

Definition ownedOf (s : State) (who : address) : list N :=
  default [] (_ownedDocuments s !! who).

Definition sharedOf (s : State) (who : address) : list N :=
  default [] (_sharedDocuments s !! who).

Definition isSharedWith (s : State) (documentId : uint256) (who : address) : bool :=
  default false (default ∅ (_isSharedWith s !! documentId) !! who).

(** ** Transactions: state passing with revert *)

Inductive Revert :=
| Error (reason : string)   (* require(cond, reason) *)
| Panic (code : N)          (* checked arithmetic, 0x11 *)
| InvalidInputProof.        (* FHE.fromExternal rejects the proof *)

Inductive Result (A : Type) :=
| Ok (a : A)
| Reverted (r : Revert).
Arguments Ok {A} a.
Arguments Reverted {A} r.

(** A call runs on the storage and either returns a value with the new
    storage or reverts; a revert keeps nothing of what was written. *)
Definition Tx (A : Type) : Type := State → Result (A * State).

Definition tx_ret {A} (a : A) : Tx A := λ s, Ok (a, s).

Definition tx_bind {A B} (m : Tx A) (k : A → Tx B) : Tx B :=
  λ s, match m s with
       | Ok (a, s') => k a s'
       | Reverted r => Reverted r
       end.

Notation "x <- m ;; k" := (tx_bind m (λ x, k))
  (at level 100, m at next level, right associativity).
Notation "m ;;; k" := (tx_bind m (λ _, k))
  (at level 100, right associativity).

Definition revert {A} (r : Revert) : Tx A := λ _, Reverted r.

Definition require (cond : bool) (reason : string) : Tx unit :=
  if cond then tx_ret tt else revert (Error reason).

Definition read {A} (f : State → A) : Tx A := λ s, Ok (f s, s).

Definition write (f : State → State) : Tx unit := λ s, Ok (tt, f s).

Definition emit (e : Event) : Tx unit :=
  write (λ s, set_logs (logs s ++ [e]) s).

(** The execution context of one call. *)
Record Msg := {
  msg_sender : address;
  block_timestamp : uint256;
  block_number : uint256
}.

(** ** The FHE engine *)

(** Modelled from the spec: the confidential-compute engine.  The Solidity
    library [FHE] and the ACL contract behind it are not part of the
    repository; the spec (4.1, 9) gives them three primitives: import with
    proof, grant and check.  [verifyInput] is the engine's proof verification
    for this deployment: the handle when the proof binds the external
    ciphertext to the submitter, [None] otherwise.  [this] is the address of
    the deployed vault. *)
Class Engine := {
  this : address;
  verifyInput : externalEaddress → bytes → address → option eaddress
}.

Section Vault.
Context `{Engine}.

(** Modelled from the spec: [importSecret], which "fails with ProofInvalid if
    verification fails" and otherwise returns the handle. *)
Definition FHE_fromExternal (msg : Msg) (encryptedAccessKey : externalEaddress)
    (inputProof : bytes) : Tx eaddress :=
  write (λ s, set_engine (acl s)
                (fheCalls s ++ [FromExternal encryptedAccessKey inputProof (msg_sender msg)]) s) ;;;
  match verifyInput encryptedAccessKey inputProof (msg_sender msg) with
  | Some handle => tx_ret handle
  | None => revert InvalidInputProof
  end.

(** Modelled from the spec: [grantPrincipal], a permanent and idempotent grant
    of decrypt permission on the handle. *)
Definition FHE_allow (handle : eaddress) (account : address) : Tx unit :=
  write (λ s, set_engine ({[ (handle, account) ]} ∪ acl s)
                (fheCalls s ++ [Allow handle account]) s).

(** Modelled from the spec: the grant to the registry itself, the first half
    of [grantSelfAndRegistry]. *)
Definition FHE_allowThis (handle : eaddress) : Tx unit :=
  write (λ s, set_engine ({[ (handle, this) ]} ∪ acl s)
                (fheCalls s ++ [AllowThis handle]) s).

(** Modelled from the spec: [requireCallerPermission]'s test, a read of the
    engine's permission table for the caller. *)
Definition FHE_isSenderAllowed (msg : Msg) (handle : eaddress) : Tx bool :=
  read (λ s, bool_decide ((handle, msg_sender msg) ∈ acl s)).

(** ** The contract *)

(** [_nextId++] under Solidity 0.8 checked arithmetic. *)
Definition postIncrement_nextId : Tx uint256 :=
  old <- read _nextId ;;
  if old =? MAX_UINT256 then revert (Panic 0x11)
  else write (set_nextId (old + 1)) ;;; tx_ret old.

Definition _requireAccess (msg : Msg) (accessKey : eaddress) : Tx unit :=
  allowed <- FHE_isSenderAllowed msg accessKey ;;
  require allowed "Sender not authorized for key".

(** Returns the storage slot's content; the callers write back through the
    same [documentId]. *)
Definition _getDocument (documentId : uint256) : Tx Document :=
  doc <- read (λ s, documentAt s documentId) ;;
  require (negb (owner doc =? address0)) "Document not found" ;;;
  tx_ret doc.

Definition createDocument (msg : Msg) (name encryptedBody : string)
    (encryptedAccessKey : externalEaddress) (inputProof : bytes) : Tx uint256 :=
  require (0 <? N.of_nat (String.length name)) "Name required" ;;;
  validatedKey <- FHE_fromExternal msg encryptedAccessKey inputProof ;;
  documentId <- postIncrement_nextId ;;
  write (λ s, set_documents
    (<[documentId := {| owner := msg_sender msg;
                        name := name;
                        encryptedBody := encryptedBody;
                        accessKey := validatedKey;
                        createdAt := block_timestamp msg;
                        updatedAt := block_timestamp msg;
                        lastEditorBlock := block_number msg |}]> (_documents s)) s) ;;;
  write (λ s, set_ownedDocuments
    (<[msg_sender msg := ownedOf s (msg_sender msg) ++ [documentId]]> (_ownedDocuments s)) s) ;;;
  FHE_allowThis validatedKey ;;;
  FHE_allow validatedKey (msg_sender msg) ;;;
  emit (DocumentCreated documentId (msg_sender msg) name) ;;;
  tx_ret documentId.

Definition updateDocumentBody (msg : Msg) (documentId : uint256)
    (newEncryptedBody : string) : Tx unit :=
  doc <- _getDocument documentId ;;
  _requireAccess msg (accessKey doc) ;;;
  write (λ s, set_documents
    (<[documentId := {| owner := owner (documentAt s documentId);
                        name := name (documentAt s documentId);
                        encryptedBody := newEncryptedBody;
                        accessKey := accessKey (documentAt s documentId);
                        createdAt := createdAt (documentAt s documentId);
                        updatedAt := block_timestamp msg;
                        lastEditorBlock := block_number msg |}]> (_documents s)) s) ;;;
  emit (DocumentUpdated documentId (msg_sender msg) newEncryptedBody).

Definition grantAccess (msg : Msg) (documentId : uint256) (grantee : address) : Tx unit :=
  require (negb (grantee =? address0)) "Invalid grantee" ;;;
  doc <- _getDocument documentId ;;
  _requireAccess msg (accessKey doc) ;;;
  shared <- read (λ s, isSharedWith s documentId grantee) ;;
  (if negb shared then
     write (λ s, set_isSharedWith
       (<[documentId := <[grantee := true]> (default ∅ (_isSharedWith s !! documentId))]>
          (_isSharedWith s)) s) ;;;
     write (λ s, set_sharedDocuments
       (<[grantee := sharedOf s grantee ++ [documentId]]> (_sharedDocuments s)) s)
   else tx_ret tt) ;;;
  FHE_allow (accessKey doc) grantee ;;;
  emit (AccessGranted documentId grantee).

Definition getDocument (documentId : uint256) : Tx Document :=
  _getDocument documentId.

Definition getOwnedDocumentIds (who : address) : Tx (list uint256) :=
  read (λ s, ownedOf s who).

Definition getSharedDocumentIds (user : address) : Tx (list uint256) :=
  read (λ s, sharedOf s user).

Definition documentExists (documentId : uint256) : Tx bool :=
  read (λ s, negb (owner (documentAt s documentId) =? address0)).

(** [_nextId - 1] under checked arithmetic. *)
Definition totalDocuments : Tx uint256 :=
  next <- read _nextId ;;
  if next <? 1 then revert (Panic 0x11) else tx_ret (next - 1).

(** The value a view returns on a state. *)
Definition view {A} (m : Tx A) (s : State) : Result A :=
  match m s with
  | Ok (a, _) => Ok a
  | Reverted r => Reverted r
  end.

(** ** Transactions and traces *)

Inductive Call :=
| CreateDocument (name encryptedBody : string) (encryptedAccessKey : externalEaddress)
    (inputProof : bytes)
| UpdateDocumentBody (documentId : uint256) (newEncryptedBody : string)
| GrantAccess (documentId : uint256) (grantee : address).

(** What a transaction reports: the id of the created document, plain
    success, or the revert. *)
Inductive Receipt :=
| Created (documentId : uint256)
| Succeeded
| Failed (r : Revert).

(** One transaction: the call's effects are kept when it returns and dropped
    when it reverts. *)
Definition transact (msg : Msg) (c : Call) (s : State) : State * Receipt :=
  match c with
  | CreateDocument name encryptedBody encryptedAccessKey inputProof =>
      match createDocument msg name encryptedBody encryptedAccessKey inputProof s with
      | Ok (documentId, s') => (s', Created documentId)
      | Reverted r => (s, Failed r)
      end
  | UpdateDocumentBody documentId newEncryptedBody =>
      match updateDocumentBody msg documentId newEncryptedBody s with
      | Ok (_, s') => (s', Succeeded)
      | Reverted r => (s, Failed r)
      end
  | GrantAccess documentId grantee =>
      match grantAccess msg documentId grantee s with
      | Ok (_, s') => (s', Succeeded)
      | Reverted r => (s, Failed r)
      end
  end.

Fixpoint execute (txs : list (Msg * Call)) (s : State) : State * list Receipt :=
  match txs with
  | [] => (s, [])
  | (msg, c) :: rest =>
      let '(s1, r) := transact msg c s in
      let '(s2, rs) := execute rest s1 in
      (s2, r :: rs)
  end.

(** The states the deployed contract can be in. *)
Definition reachable (s : State) : Prop :=
  ∃ txs, (execute txs initial).1 = s.

(** The ids handed out by the successful creations of a trace. *)
Fixpoint createdIds (rs : list Receipt) : list uint256 :=
  match rs with
  | [] => []
  | Created documentId :: rest => documentId :: createdIds rest
  | _ :: rest => createdIds rest
  end.

(** [n] consecutive ids starting at [first]. *)
Fixpoint idsFrom (first : uint256) (n : nat) : list uint256 :=
  match n with
  | O => []
  | S k => first :: idsFrom (first + 1) k
  end.

End Vault.

(** ** What the calls leave behind, and the invariant *)

Section VaultStates.
Context `{Engine}.

(** The storage after a successful [createDocument] that imported [handle]. *)
Definition afterCreate (msg : Msg) (name encryptedBody : string)
    (encryptedAccessKey : externalEaddress) (inputProof : bytes) (handle : eaddress)
    (s : State) : State :=
  {| _nextId := _nextId s + 1;
     _documents :=
       <[_nextId s := {| owner := msg_sender msg; name := name;
                         encryptedBody := encryptedBody; accessKey := handle;
                         createdAt := block_timestamp msg;
                         updatedAt := block_timestamp msg;
                         lastEditorBlock := block_number msg |}]> (_documents s);
     _ownedDocuments :=
       <[msg_sender msg := ownedOf s (msg_sender msg) ++ [_nextId s]]> (_ownedDocuments s);
     _sharedDocuments := _sharedDocuments s;
     _isSharedWith := _isSharedWith s;
     acl := {[ (handle, msg_sender msg) ]} ∪ ({[ (handle, this) ]} ∪ acl s);
     fheCalls := fheCalls s ++ [FromExternal encryptedAccessKey inputProof (msg_sender msg);
                                AllowThis handle; Allow handle (msg_sender msg)];
     logs := logs s ++ [DocumentCreated (_nextId s) (msg_sender msg) name] |}.

(** The storage after a successful [updateDocumentBody]. *)
Definition afterUpdate (msg : Msg) (documentId : uint256) (newEncryptedBody : string)
    (s : State) : State :=
  {| _nextId := _nextId s;
     _documents :=
       <[documentId := {| owner := owner (documentAt s documentId);
                          name := name (documentAt s documentId);
                          encryptedBody := newEncryptedBody;
                          accessKey := accessKey (documentAt s documentId);
                          createdAt := createdAt (documentAt s documentId);
                          updatedAt := block_timestamp msg;
                          lastEditorBlock := block_number msg |}]> (_documents s);
     _ownedDocuments := _ownedDocuments s;
     _sharedDocuments := _sharedDocuments s;
     _isSharedWith := _isSharedWith s;
     acl := acl s;
     fheCalls := fheCalls s;
     logs := logs s ++ [DocumentUpdated documentId (msg_sender msg) newEncryptedBody] |}.

(** The storage after a successful [grantAccess]. *)
Definition afterGrant (documentId : uint256) (grantee : address) (s : State) : State :=
  {| _nextId := _nextId s;
     _documents := _documents s;
     _ownedDocuments := _ownedDocuments s;
     _sharedDocuments :=
       if isSharedWith s documentId grantee then _sharedDocuments s
       else <[grantee := sharedOf s grantee ++ [documentId]]> (_sharedDocuments s);
     _isSharedWith :=
       if isSharedWith s documentId grantee then _isSharedWith s
       else <[documentId := <[grantee := true]> (default ∅ (_isSharedWith s !! documentId))]>
              (_isSharedWith s);
     acl := {[ (accessKey (documentAt s documentId), grantee) ]} ∪ acl s;
     fheCalls := fheCalls s ++ [Allow (accessKey (documentAt s documentId)) grantee];
     logs := logs s ++ [AccessGranted documentId grantee] |}.

Definition exists_ (s : State) (documentId : uint256) : bool :=
  negb (owner (documentAt s documentId) =? address0).

Definition permitted (s : State) (handle : eaddress) (who : address) : bool :=
  bool_decide ((handle, who) ∈ acl s).

(** What holds of the storage in every reachable state. *)
Record Invariant (s : State) : Prop := {
  inv_next : 1 ≤ _nextId s;
  inv_fresh : ∀ documentId, _nextId s ≤ documentId → _documents s !! documentId = None;
  inv_zero : _documents s !! 0 = None;
  inv_shared : ∀ documentId who,
    count_occ N.eq_dec (sharedOf s who) documentId =
      if isSharedWith s documentId who then 1%nat else 0%nat;
  inv_owned : ∀ documentId doc,
    _documents s !! documentId = Some doc → documentId ∈ ownedOf s (owner doc);
  inv_owner_permitted : ∀ documentId doc,
    _documents s !! documentId = Some doc → (accessKey doc, owner doc) ∈ acl s
}.

End VaultStates.

(** ** A test engine and the states of the repository's tests *)

(** The in-memory engine of the tests: a proof is accepted when it is not
    empty, and the handle is the external handle itself. *)
#[global] Instance testEngine : Engine :=
  {| this := 0xC0FFEE;
     verifyInput := λ handle inputProof _,
       match inputProof with [] => None | _ => Some handle end |}.

Definition ownerA : address := 0xA11CE.
Definition bob : address := 0xB0B.
Definition carol : address := 0xCA201.

Definition at_block (who : address) (blk : N) : Msg :=
  {| msg_sender := who; block_timestamp := 1700000000 + 12 * blk; block_number := blk |}.

Definition someProof : bytes := [Byte.x01].

(** "stores the encrypted key": one document named Genesis with an empty body. *)
Definition genesis : State :=
  (execute [(at_block ownerA 1, CreateDocument "Genesis" "" 77 someProof)] initial).1.

(** * The client envelope ([utils/crypto.ts]) *)

(** ** JavaScript values *)

(** A JavaScript string is a sequence of UTF-16 code units. *)
Abbreviation jsstring := (list N) (only parsing).

(** A [Uint8Array]. *)
Abbreviation Uint8Array := (list Byte.byte) (only parsing).

(** Storing a number into a [Uint8Array] keeps its low eight bits. *)
Definition toUint8 (n : N) : Byte.byte :=
  default Byte.x00 (Byte.of_N (n mod 256)).

Inductive DOMException :=
| InvalidCharacterError   (* btoa, atob *)
| OperationError          (* crypto.subtle.decrypt *)
| DataError.              (* crypto.subtle.importKey *)

(** How an awaited call ends: with a value, or by throwing. *)
Inductive Outcome (A : Type) :=
| Resolved (a : A)
| Rejected (e : DOMException).
Arguments Resolved {A} a.
Arguments Rejected {A} e.

Definition andThen {A B} (m : Outcome A) (k : A → Outcome B) : Outcome B :=
  match m with
  | Resolved a => k a
  | Rejected e => Rejected e
  end.

Notation "'await' x := m 'in' k" := (andThen m (λ x, k))
  (at level 10, x name, m at level 100, k at level 200).

(** ** The platform's text codecs *)

(** [TextEncoder], [TextDecoder], [btoa] and [atob] are the browser's, not the
    repository's.  They are written out here after the Encoding standard
    (UTF-8 encoder and decoder, BOM handling of [TextDecoder]) and the HTML
    standard (forgiving-base64), with the standards' shifts and masks as
    divisions and remainders. *)

Definition isHighSurrogate (u : N) : bool := (0xD800 <=? u) && (u <=? 0xDBFF).
Definition isLowSurrogate (u : N) : bool := (0xDC00 <=? u) && (u <=? 0xDFFF).

(** [String.prototype.isWellFormed]: code units below 2^16 with every
    surrogate paired. *)
Fixpoint isWellFormed (s : jsstring) : bool :=
  match s with
  | [] => true
  | c :: rest =>
      if isHighSurrogate c then
        match rest with
        | d :: rest' => isLowSurrogate d && isWellFormed rest'
        | [] => false
        end
      else negb (isLowSurrogate c) && (c <? 0x10000) && isWellFormed rest
  end.

(** The conversion of a string to scalar values that [TextEncoder.encode]
    starts with: a surrogate pair is one code point, a lone surrogate becomes
    U+FFFD. *)
Fixpoint toScalarValues (s : jsstring) : list N :=
  match s with
  | [] => []
  | c :: rest =>
      if isHighSurrogate c then
        match rest with
        | d :: rest' =>
            if isLowSurrogate d
            then (0x10000 + (c - 0xD800) * 0x400 + (d - 0xDC00)) :: toScalarValues rest'
            else 0xFFFD :: toScalarValues rest
        | [] => [0xFFFD]
        end
      else if isLowSurrogate c then 0xFFFD :: toScalarValues rest
      else c :: toScalarValues rest
  end.

(** The UTF-8 encoder on one scalar value; the shifts and masks of the
    Encoding standard are written as divisions and remainders. *)
Definition utf8_encode1 (cp : N) : list N :=
  if cp <=? 0x7F then [cp]
  else if cp <=? 0x7FF then [0xC0 + cp / 64; 0x80 + cp mod 64]
  else if cp <=? 0xFFFF then
    [0xE0 + cp / 4096; 0x80 + (cp / 64) mod 64; 0x80 + cp mod 64]
  else
    [0xF0 + cp / 262144; 0x80 + (cp / 4096) mod 64; 0x80 + (cp / 64) mod 64;
     0x80 + cp mod 64].

(** [textEncoder.encode(s)] *)
Definition TextEncoder_encode (s : jsstring) : Uint8Array :=
  map toUint8 (flat_map utf8_encode1 (toScalarValues s)).

(** The state of the Encoding standard's UTF-8 decoder. *)
Record Utf8Decoder := {
  code_point : N;
  bytes_seen : N;
  bytes_needed : N;
  lower_boundary : N;
  upper_boundary : N
}.

Definition utf8_reset : Utf8Decoder :=
  {| code_point := 0; bytes_seen := 0; bytes_needed := 0;
     lower_boundary := 0x80; upper_boundary := 0xBF |}.

(** A byte read when no byte is awaited: the new state and the code points
    emitted. *)
Definition utf8_lead (b : N) : Utf8Decoder * list N :=
  if b <=? 0x7F then (utf8_reset, [b])
  else if (0xC2 <=? b) && (b <=? 0xDF) then
    ({| code_point := b mod 32; bytes_seen := 0; bytes_needed := 1;
        lower_boundary := 0x80; upper_boundary := 0xBF |}, [])
  else if (0xE0 <=? b) && (b <=? 0xEF) then
    ({| code_point := b mod 16; bytes_seen := 0; bytes_needed := 2;
        lower_boundary := if b =? 0xE0 then 0xA0 else 0x80;
        upper_boundary := if b =? 0xED then 0x9F else 0xBF |}, [])
  else if (0xF0 <=? b) && (b <=? 0xF4) then
    ({| code_point := b mod 8; bytes_seen := 0; bytes_needed := 3;
        lower_boundary := if b =? 0xF0 then 0x90 else 0x80;
        upper_boundary := if b =? 0xF4 then 0x8F else 0xBF |}, [])
  else (utf8_reset, [0xFFFD]).

(** One byte through the decoder.  A byte outside the awaited range ends the
    sequence with U+FFFD and is read again as a lead byte. *)
Definition utf8_step (st : Utf8Decoder) (b : N) : Utf8Decoder * list N :=
  if bytes_needed st =? 0 then utf8_lead b
  else if (b <? lower_boundary st) || (upper_boundary st <? b) then
    let '(st', out) := utf8_lead b in (st', 0xFFFD :: out)
  else
    let cp := code_point st * 64 + b mod 64 in
    if bytes_seen st + 1 =? bytes_needed st then (utf8_reset, [cp])
    else ({| code_point := cp; bytes_seen := bytes_seen st + 1;
             bytes_needed := bytes_needed st;
             lower_boundary := 0x80; upper_boundary := 0xBF |}, []).

(** The decoder over a byte sequence; a sequence cut short ends in U+FFFD. *)
Fixpoint utf8_run (st : Utf8Decoder) (input : list N) : list N :=
  match input with
  | [] => if bytes_needed st =? 0 then [] else [0xFFFD]
  | b :: rest => let '(st', out) := utf8_step st b in out ++ utf8_run st' rest
  end.

(** A code point as UTF-16 code units. *)
Definition utf16_encode1 (cp : N) : list N :=
  if cp <? 0x10000 then [cp]
  else [0xD800 + (cp - 0x10000) / 0x400; 0xDC00 + (cp - 0x10000) mod 0x400].

(** [new TextDecoder()] has [ignoreBOM] false: a leading U+FEFF is dropped. *)
Definition dropBOM (cps : list N) : list N :=
  match cps with
  | cp :: rest => if cp =? 0xFEFF then rest else cps
  | [] => []
  end.

(** [textDecoder.decode(buffer)] (UTF-8, not fatal) *)
Definition TextDecoder_decode (buffer : Uint8Array) : jsstring :=
  flat_map utf16_encode1 (dropBOM (utf8_run utf8_reset (map Byte.to_N buffer))).

(** ** The platform's base64 *)

(** The character of a 6-bit value. *)
Definition base64_char (v : N) : N :=
  if v <? 26 then 65 + v
  else if v <? 52 then 97 + (v - 26)
  else if v <? 62 then 48 + (v - 52)
  else if v =? 62 then 43
  else 47.

(** The 6-bit value of a character of the alphabet. *)
Definition base64_value (c : N) : option N :=
  if (65 <=? c) && (c <=? 90) then Some (c - 65)
  else if (97 <=? c) && (c <=? 122) then Some (c - 97 + 26)
  else if (48 <=? c) && (c <=? 57) then Some (c - 48 + 52)
  else if c =? 43 then Some 62
  else if c =? 47 then Some 63
  else None.

(** U+003D, the padding character. *)
Definition base64_pad : N := 61.

(** The characters of the groups of three bytes, and of a last group of one
    or two. *)
Fixpoint base64_body (input : list N) : list N :=
  match input with
  | a :: b :: c :: rest =>
      let n := a * 65536 + b * 256 + c in
      base64_char (n / 262144) :: base64_char ((n / 4096) mod 64)
        :: base64_char ((n / 64) mod 64) :: base64_char (n mod 64) :: base64_body rest
  | [a; b] =>
      let n := a * 1024 + b * 4 in
      [base64_char (n / 4096); base64_char ((n / 64) mod 64); base64_char (n mod 64)]
  | [a] =>
      let n := a * 16 in
      [base64_char (n / 64); base64_char (n mod 64)]
  | [] => []
  end.

Definition base64_padding (input : list N) : list N :=
  match (length input mod 3)%nat with
  | 1%nat => [base64_pad; base64_pad]
  | 2%nat => [base64_pad]
  | _ => []
  end.

(** [btoa(binary)]: throws on a code unit above 0xFF. *)
Definition btoa (binary : jsstring) : Outcome jsstring :=
  if forallb (λ c, c <=? 0xFF) binary
  then Resolved (base64_body binary ++ base64_padding binary)
  else Rejected InvalidCharacterError.

Definition isAsciiWhitespace (c : N) : bool :=
  (c =? 0x09) || (c =? 0x0A) || (c =? 0x0C) || (c =? 0x0D) || (c =? 0x20).

(** "If data ends with one or two U+003D (=) code points, remove them." *)
Definition removePadding (data : list N) : list N :=
  match rev data with
  | last :: front =>
      if last =? base64_pad then
        match front with
        | before :: front' => if before =? base64_pad then rev front' else rev front
        | [] => []
        end
      else data
  | [] => data
  end.

(** The bytes of a sequence of 6-bit values: three per group of four; a last
    group of two gives one byte and of three gives two, its spare bits
    dropped. *)
Fixpoint base64_bytes (values : list N) : list N :=
  match values with
  | a :: b :: c :: d :: rest =>
      let n := a * 262144 + b * 4096 + c * 64 + d in
      n / 65536 :: (n / 256) mod 256 :: n mod 256 :: base64_bytes rest
  | [a; b; c] =>
      let n := (a * 4096 + b * 64 + c) / 4 in
      [n / 256; n mod 256]
  | [a; b] => [(a * 64 + b) / 16]
  | _ => []
  end.

(** All the values of the characters, when all are of the alphabet. *)
Fixpoint base64_values (data : list N) : option (list N) :=
  match data with
  | [] => Some []
  | c :: rest =>
      match base64_value c, base64_values rest with
      | Some v, Some vs => Some (v :: vs)
      | _, _ => None
      end
  end.

(** [atob(data)]: the forgiving-base64 decode of the HTML standard. *)
Definition atob (data : jsstring) : Outcome jsstring :=
  let data := filter (λ c, isAsciiWhitespace c = false) data in
  let data := if (length data mod 4 =? 0)%nat then removePadding data else data in
  if (length data mod 4 =? 1)%nat then Rejected InvalidCharacterError
  else match base64_values data with
       | Some values => Resolved (base64_bytes values)
       | None => Rejected InvalidCharacterError
       end.

(** ** The platform's cryptography *)

(** [crypto.subtle] and [String.prototype.toLowerCase] are the platform's.
    [aesGcmEncrypt key iv data] is AES-GCM with the default 128-bit tag: the
    ciphertext followed by the 16 bytes of the tag.  Decryption recomputes
    the tag, so it accepts exactly the outputs of encryption under the same
    key and nonce; anything shorter than a tag is refused. *)
Class Platform := {
  toLowerCase : jsstring → jsstring;
  sha256 : Uint8Array → Uint8Array;
  aesGcmEncrypt : Uint8Array → Uint8Array → Uint8Array → Uint8Array;
  aesGcmDecrypt : Uint8Array → Uint8Array → Uint8Array → option Uint8Array;
  sha256_length : ∀ data, length (sha256 data) = 32%nat;
  aesGcmEncrypt_length : ∀ key iv data,
    length (aesGcmEncrypt key iv data) = (length data + 16)%nat;
  aesGcmDecrypt_accepts : ∀ key iv cipher data,
    aesGcmDecrypt key iv cipher = Some data ↔ cipher = aesGcmEncrypt key iv data
}.

Section Envelope.
Context `{Platform}.

(** [crypto.subtle.importKey("raw", material, "AES-GCM", ...)]: an AES key
    has 16, 24 or 32 bytes. *)
Definition importKey (material : Uint8Array) : Outcome Uint8Array :=
  if (length material =? 16)%nat || (length material =? 24)%nat
     || (length material =? 32)%nat
  then Resolved material else Rejected DataError.

Definition deriveKey (addressKey : jsstring) : Outcome Uint8Array :=
  let normalized := toLowerCase addressKey in
  let hash := sha256 (TextEncoder_encode normalized) in
  importKey hash.

Definition toBase64 (bytes : Uint8Array) : Outcome jsstring :=
  let binary := map Byte.to_N bytes in
  btoa binary.

Definition fromBase64 (value : jsstring) : Outcome Uint8Array :=
  await binary := atob value in
  Resolved (map toUint8 binary).

(** [iv] is what [crypto.getRandomValues(new Uint8Array(12))] returned. *)
Definition encryptBodyWithKey (iv : Uint8Array) (body addressKey : jsstring)
    : Outcome jsstring :=
  if (length body =? 0)%nat then Resolved []
  else
    await key := deriveKey addressKey in
    let cipherBuffer := aesGcmEncrypt key iv (TextEncoder_encode body) in
    let payload := iv ++ cipherBuffer in
    toBase64 payload.

Definition decryptBodyWithKey (payload addressKey : jsstring) : Outcome jsstring :=
  match payload with
  | [] => Resolved []
  | _ =>
      await raw := fromBase64 payload in
      let iv := take 12 raw in
      let cipher := drop 12 raw in
      await key := deriveKey addressKey in
      match aesGcmDecrypt key iv cipher with
      | Some decrypted => Resolved (TextDecoder_decode decrypted)
      | None => Rejected OperationError
      end
  end.

End Envelope.

(** A JavaScript string literal. *)
Definition js (s : string) : jsstring :=
  map (λ a, N.of_nat (Ascii.nat_of_ascii a)) (String.list_ascii_of_string s).

(** ** A stand-in platform for the examples *)

#[global] Instance byte_eq_decision : EqDecision Byte.byte := Byte.byte_eq_dec.

(** Not a cipher: the "tag" is key and nonce material, enough to tell keys
    and nonces apart in the examples. *)
Definition testLowerCase (s : jsstring) : jsstring :=
  map (λ c, if (65 <=? c) && (c <=? 90) then c + 32 else c) s.

Definition testDigest (data : Uint8Array) : Uint8Array :=
  take 32 (data ++ replicate 32 Byte.x00).

Definition testTag (key iv : Uint8Array) : Uint8Array :=
  take 16 (key ++ iv ++ replicate 16 Byte.x00).

Definition testEncrypt (key iv data : Uint8Array) : Uint8Array :=
  data ++ testTag key iv.

Definition testDecrypt (key iv cipher : Uint8Array) : option Uint8Array :=
  let n := (length cipher - 16)%nat in
  if (16 <=? length cipher)%nat && bool_decide (drop n cipher = testTag key iv)
  then Some (take n cipher) else None.

Definition nonceA : Uint8Array := replicate 12 Byte.x0a.
Definition nonceB : Uint8Array := replicate 12 Byte.x0b.

(** ** Predicates of the statements *)

(** A character [btoa] writes for data: not white space, not the padding. *)
Definition plainChar (c : N) : Prop :=
  isAsciiWhitespace c = false ∧ (c =? base64_pad) = false.

(** A Unicode scalar value: a code point that is not a surrogate. *)
Definition isScalar (cp : N) : Prop :=
  cp < 0x110000 ∧ (cp < 0xD800 ∨ 0xDFFF < cp).

(** ** More of what holds in reachable states *)

Section VaultIndexes.
Context `{Engine}.

(** The indexes agree with the records: the owner index of a principal lists,
    in increasing order, the documents it owns; a share flag is only set for
    an existing document and a grantee that is not the zero address and holds
    permission on the document's key; every stored name is non-empty, and
    the vault itself holds permission on every stored key. *)
Record IndexInvariant (s : State) : Prop := {
  idx_owned : ∀ who documentId,
    documentId ∈ ownedOf s who ↔
      ∃ doc, _documents s !! documentId = Some doc ∧ owner doc = who;
  idx_owned_sorted : ∀ who, StronglySorted N.lt (ownedOf s who);
  idx_shared : ∀ who documentId,
    isSharedWith s documentId who = true →
    exists_ s documentId = true ∧ who ≠ address0
    ∧ (accessKey (documentAt s documentId), who) ∈ acl s;
  idx_named : ∀ documentId doc,
    _documents s !! documentId = Some doc → name doc ≠ "";
  idx_this : ∀ documentId doc,
    _documents s !! documentId = Some doc → (accessKey doc, this) ∈ acl s
}.

End VaultIndexes.

(** The ids of the [DocumentCreated] events of a log, in order. *)
Fixpoint createdEventIds (events : list Event) : list uint256 :=
  match events with
  | [] => []
  | DocumentCreated documentId _ _ :: rest => documentId :: createdEventIds rest
  | _ :: rest => createdEventIds rest
  end.

(** The transactions of a trace that did not revert. *)
Fixpoint countSucceeded (rs : list Receipt) : nat :=
  match rs with
  | [] => 0
  | Failed _ :: rest => countSucceeded rest
  | _ :: rest => S (countSucceeded rest)
  end.

(** Block timestamps that never go back, starting from [since]. *)
Fixpoint timestampsFrom (since : uint256) (txs : list (Msg * Call)) : Prop :=
  match txs with
  | [] => True
  | (msg, _) :: rest => since ≤ block_timestamp msg ∧ timestampsFrom (block_timestamp msg) rest
  end.

(** The event a transaction logs: none when it reverts. *)
Definition emitted (msg : Msg) (c : Call) (r : Receipt) : list Event :=
  match r, c with
  | Created documentId, CreateDocument name _ _ _ =>
      [DocumentCreated documentId (msg_sender msg) name]
  | Succeeded, UpdateDocumentBody documentId newEncryptedBody =>
      [DocumentUpdated documentId (msg_sender msg) newEncryptedBody]
  | Succeeded, GrantAccess documentId grantee => [AccessGranted documentId grantee]
  | _, _ => []
  end.

Fixpoint emittedBy (txs : list (Msg * Call)) (rs : list Receipt) : list Event :=
  match txs, rs with
  | (msg, c) :: txs', r :: rs' => emitted msg c r ++ emittedBy txs' rs'
  | _, _ => []
  end.

(** The timestamp of the last block of a trace that starts at [since]. *)
Fixpoint latestTimestamp (since : uint256) (txs : list (Msg * Call)) : uint256 :=
  match txs with
  | [] => since
  | (msg, _) :: rest => latestTimestamp (block_timestamp msg) rest
  end.

(** ** The document list of the client ([components/DocumentApp.tsx]) *)

(** [ids.add(x)] on a [Set], whose elements are kept in insertion order. *)
Definition Set_add (x : N) (ids : list N) : list N :=
  if bool_decide (x ∈ ids) then ids else ids ++ [x].

Section DocumentApp.
(** [Number(id)] of a [bigint] is the platform's; its results here are
    non-negative whole numbers. *)
Variable Number : N → N.

(** [data?.forEach((id) => ids.add(Number(id)))]; [None] is [undefined]. *)
Definition addAll (data : option (list N)) (ids : list N) : list N :=
  match data with
  | Some l => foldl (λ acc id, Set_add (Number id) acc) ids l
  | None => ids
  end.

(** The memoised [docIds]: [Array.from(ids).sort((a, b) => a - b)] sorts the
    numbers in ascending order. *)
Definition docIds (ownedData sharedData : option (list N)) : list N :=
  let ids := [] in
  let ids := addAll ownedData ids in
  let ids := addAll sharedData ids in
  merge_sort N.le ids.

End DocumentApp.

(** ** A longer test trace *)

(** Alice creates a document, shares it with Bob and with herself; Bob edits
    it and creates a document of his own. *)
Definition scenario : list (Msg * Call) :=
  [ (at_block ownerA 1, CreateDocument "Genesis" "" 77 someProof);
    (at_block ownerA 2, GrantAccess 1 bob);
    (at_block ownerA 2, GrantAccess 1 ownerA);
    (at_block bob 3, UpdateDocumentBody 1 "ciphertextX");
    (at_block bob 4, CreateDocument "Notes" "" 78 someProof) ].

Definition afterScenario : State := (execute scenario initial).1.

(** * Properties of the registry *)

Section VaultFacts.
Context `{Engine}.

(** ** What each call computes *)

Lemma createDocument_run msg name encryptedBody encryptedAccessKey inputProof s :
  createDocument msg name encryptedBody encryptedAccessKey inputProof s =
    if 0 <? N.of_nat (String.length name) then
      match verifyInput encryptedAccessKey inputProof (msg_sender msg) with
      | None => Reverted InvalidInputProof
      | Some handle =>
          if _nextId s =? MAX_UINT256 then Reverted (Panic 0x11)
          else Ok (_nextId s,
                   afterCreate msg name encryptedBody encryptedAccessKey inputProof handle s)
      end
    else Reverted (Error "Name required").
Proof.
  unfold createDocument, tx_bind, require.
  destruct (0 <? _) ; [|reflexivity]. cbn.
  destruct (verifyInput _ _ _) as [handle|]; [|reflexivity]. cbn.
  unfold postIncrement_nextId, tx_bind, read. cbn.
  destruct (_nextId s =? MAX_UINT256); [reflexivity|]. cbn.
  unfold afterCreate, ownedOf. cbn. by rewrite <- !app_assoc.
Qed.

Lemma updateDocumentBody_run msg documentId newEncryptedBody s :
  updateDocumentBody msg documentId newEncryptedBody s =
    if exists_ s documentId then
      if permitted s (accessKey (documentAt s documentId)) (msg_sender msg) then
        Ok (tt, afterUpdate msg documentId newEncryptedBody s)
      else Reverted (Error "Sender not authorized for key")
    else Reverted (Error "Document not found").
Proof.
  unfold updateDocumentBody, _getDocument, _requireAccess, FHE_isSenderAllowed,
    tx_bind, require, read, exists_, permitted. cbn.
  destruct (negb _); [|reflexivity]. cbn.
  destruct (bool_decide _); reflexivity.
Qed.

Lemma grantAccess_run msg documentId grantee s :
  grantAccess msg documentId grantee s =
    if negb (grantee =? address0) then
      if exists_ s documentId then
        if permitted s (accessKey (documentAt s documentId)) (msg_sender msg) then
          Ok (tt, afterGrant documentId grantee s)
        else Reverted (Error "Sender not authorized for key")
      else Reverted (Error "Document not found")
    else Reverted (Error "Invalid grantee").
Proof.
  unfold grantAccess, _getDocument, _requireAccess, FHE_isSenderAllowed,
    tx_bind, require, read, exists_, permitted. cbn.
  destruct (negb (grantee =? _)); [|reflexivity]. cbn.
  destruct (negb (owner _ =? _)); [|reflexivity]. cbn.
  destruct (bool_decide _); [|reflexivity]. cbn.
  unfold afterGrant. destruct (isSharedWith s documentId grantee); reflexivity.
Qed.

(** ** The invariant holds in reachable states *)

Lemma Invariant_initial : Invariant initial.
Proof.
  split; cbn; try done.
Qed.

Lemma exists_lookup s documentId :
  exists_ s documentId = true →
  _documents s !! documentId = Some (documentAt s documentId).
Proof.
  unfold exists_, documentAt.
  destruct (_documents s !! documentId) as [doc|]; cbn; [done|].
  discriminate.
Qed.

Lemma exists_below_next s documentId :
  Invariant s → exists_ s documentId = true → 1 ≤ documentId < _nextId s.
Proof.
  intros Hinv Hex. apply exists_lookup in Hex.
  split.
  - destruct (decide (documentId = 0)) as [->|]; [|lia].
    rewrite (inv_zero _ Hinv) in Hex. discriminate.
  - destruct (decide (_nextId s ≤ documentId)) as [Hle|]; [|lia].
    rewrite (inv_fresh _ Hinv _ Hle) in Hex. discriminate.
Qed.

Lemma ownedOf_insert s who l who' (m := _ownedDocuments s) s' :
  _ownedDocuments s' = <[who := l]> m →
  ownedOf s' who' = if decide (who = who') then l else ownedOf s who'.
Proof.
  intros Heq. unfold ownedOf. rewrite Heq. subst m.
  case_decide as Hd; [subst; by rewrite lookup_insert_eq|by rewrite lookup_insert_ne].
Qed.

Lemma Invariant_afterCreate msg name encryptedBody encryptedAccessKey inputProof handle s :
  Invariant s → _nextId s ≠ MAX_UINT256 →
  Invariant (afterCreate msg name encryptedBody encryptedAccessKey inputProof handle s).
Proof.
  intros Hinv Hmax. pose proof (inv_next _ Hinv) as Hnext.
  split; cbn.
  - lia.
  - intros documentId Hle. rewrite lookup_insert_ne by lia.
    apply (inv_fresh _ Hinv). lia.
  - rewrite lookup_insert_ne by lia. apply (inv_zero _ Hinv).
  - apply (inv_shared _ Hinv).
  - intros documentId doc.
    rewrite (ownedOf_insert s (msg_sender msg) _ (owner doc)) by reflexivity.
    destruct (decide (_nextId s = documentId)) as [<-|Hne].
    + rewrite lookup_insert_eq. intros [= <-]. cbn.
      rewrite decide_True by done. set_solver.
    + rewrite lookup_insert_ne by done. intros Hdoc.
      pose proof (inv_owned _ Hinv _ _ Hdoc).
      case_decide as Hd; [|done]. rewrite Hd. apply elem_of_app. by left.
  - intros documentId doc.
    destruct (decide (_nextId s = documentId)) as [<-|Hne].
    + rewrite lookup_insert_eq. intros [= <-]. cbn. set_solver.
    + rewrite lookup_insert_ne by done. intros Hdoc.
      pose proof (inv_owner_permitted _ Hinv _ _ Hdoc). set_solver.
Qed.

Lemma Invariant_afterUpdate msg documentId newEncryptedBody s :
  Invariant s → exists_ s documentId = true →
  Invariant (afterUpdate msg documentId newEncryptedBody s).
Proof.
  intros Hinv Hex. pose proof (exists_below_next _ _ Hinv Hex) as Hrange.
  apply exists_lookup in Hex.
  split; cbn.
  - apply (inv_next _ Hinv).
  - intros id' Hle. rewrite lookup_insert_ne by lia. by apply (inv_fresh _ Hinv).
  - rewrite lookup_insert_ne by lia. apply (inv_zero _ Hinv).
  - apply (inv_shared _ Hinv).
  - intros id' doc. destruct (decide (documentId = id')) as [<-|Hne].
    + rewrite lookup_insert_eq. intros [= <-]. cbn.
      apply (inv_owned _ Hinv _ _ Hex).
    + rewrite lookup_insert_ne by done. apply (inv_owned _ Hinv).
  - intros id' doc. destruct (decide (documentId = id')) as [<-|Hne].
    + rewrite lookup_insert_eq. intros [= <-]. cbn.
      apply (inv_owner_permitted _ Hinv _ _ Hex).
    + rewrite lookup_insert_ne by done. apply (inv_owner_permitted _ Hinv).
Qed.

Lemma isSharedWith_afterGrant documentId grantee s id' who' :
  isSharedWith (afterGrant documentId grantee s) id' who' =
    if decide (id' = documentId ∧ who' = grantee) then true else isSharedWith s id' who'.
Proof.
  unfold isSharedWith at 1. cbn.
  destruct (isSharedWith s documentId grantee) eqn:Hflag.
  - case_decide as Hd; [|done]. destruct Hd as [-> ->]. exact Hflag.
  - destruct (decide (id' = documentId)) as [->|Hne].
    + rewrite lookup_insert_eq. cbn.
      destruct (decide (who' = grantee)) as [->|Hne'].
      * rewrite lookup_insert_eq. cbn. by rewrite decide_True.
      * rewrite lookup_insert_ne by done. rewrite decide_False by (intros [? ?]; congruence). done.
    + rewrite lookup_insert_ne by done. rewrite decide_False by (intros [? ?]; congruence). done.
Qed.

Lemma sharedOf_afterGrant documentId grantee s who' :
  sharedOf (afterGrant documentId grantee s) who' =
    if decide (who' = grantee ∧ isSharedWith s documentId grantee = false)
    then sharedOf s grantee ++ [documentId] else sharedOf s who'.
Proof.
  unfold sharedOf at 1. cbn.
  destruct (isSharedWith s documentId grantee) eqn:Hflag.
  - rewrite decide_False by (intros [? ?]; congruence). done.
  - destruct (decide (who' = grantee)) as [->|Hne].
    + rewrite lookup_insert_eq. cbn. by rewrite decide_True.
    + rewrite lookup_insert_ne by done. rewrite decide_False by (intros [? ?]; congruence). done.
Qed.

Lemma Invariant_afterGrant documentId grantee s :
  Invariant s → Invariant (afterGrant documentId grantee s).
Proof.
  intros Hinv. split.
  - apply (inv_next _ Hinv).
  - apply (inv_fresh _ Hinv).
  - apply (inv_zero _ Hinv).
  - intros id' who'. rewrite isSharedWith_afterGrant, sharedOf_afterGrant.
    pose proof (inv_shared _ Hinv id' who') as Hcount.
    destruct (decide (who' = grantee ∧ _)) as [[-> Hflag]|Hn].
    + rewrite count_occ_app, Hcount. cbn.
      destruct (decide (id' = documentId)) as [->|Hne].
      * rewrite Hflag, decide_True by done.
        destruct (N.eq_dec documentId documentId); [done|congruence].
      * rewrite decide_False by (intros [? ?]; congruence).
        destruct (N.eq_dec documentId id'); [congruence|]. lia.
    + rewrite Hcount. case_decide as Hd; [|done].
      destruct Hd as [-> ->].
      destruct (isSharedWith s documentId grantee); [done|]. naive_solver.
  - apply (inv_owned _ Hinv).
  - intros id' doc Hdoc. cbn.
    pose proof (inv_owner_permitted _ Hinv _ _ Hdoc). set_solver.
Qed.

Lemma Invariant_transact msg c s :
  Invariant s → Invariant (transact msg c s).1.
Proof.
  intros Hinv. destruct c as [nm body key proof|documentId body|documentId grantee]; cbn.
  - rewrite createDocument_run.
    destruct (0 <? _); [|done].
    destruct (verifyInput _ _ _); [|done].
    destruct (_nextId s =? MAX_UINT256) eqn:Hmax; [done|]. cbn.
    apply Invariant_afterCreate; [done|]. by apply N.eqb_neq.
  - rewrite updateDocumentBody_run.
    destruct (exists_ s documentId) eqn:Hex; [|done].
    destruct (permitted _ _ _); [|done]. cbn.
    by apply Invariant_afterUpdate.
  - rewrite grantAccess_run.
    destruct (negb _); [|done].
    destruct (exists_ s documentId); [|done].
    destruct (permitted _ _ _); [|done]. cbn.
    by apply Invariant_afterGrant.
Qed.

Lemma execute_cons msg c rest s :
  execute ((msg, c) :: rest) s =
    ((execute rest (transact msg c s).1).1,
     (transact msg c s).2 :: (execute rest (transact msg c s).1).2).
Proof.
  cbn. destruct (transact msg c s) as [s1 r]. cbn.
  by destruct (execute rest s1) as [s2 rs].
Qed.

Lemma execute_app txs1 txs2 s :
  execute (txs1 ++ txs2) s =
    ((execute txs2 (execute txs1 s).1).1,
     (execute txs1 s).2 ++ (execute txs2 (execute txs1 s).1).2).
Proof.
  revert s. induction txs1 as [|[msg c] rest IH]; intros s.
  - cbn. by destruct (execute txs2 s).
  - rewrite <- app_comm_cons, !execute_cons, IH. reflexivity.
Qed.

Lemma Invariant_execute txs s :
  Invariant s → Invariant (execute txs s).1.
Proof.
  revert s. induction txs as [|[msg c] rest IH]; intros s Hinv; [done|].
  rewrite execute_cons. cbn. apply IH. by apply Invariant_transact.
Qed.

Lemma reachable_Invariant s : reachable s → Invariant s.
Proof.
  intros [txs <-]. apply Invariant_execute, Invariant_initial.
Qed.

Lemma reachable_execute txs s : reachable s → reachable (execute txs s).1.
Proof.
  intros [txs0 <-]. exists (txs0 ++ txs). by rewrite execute_app.
Qed.

Lemma reachable_transact msg c s : reachable s → reachable (transact msg c s).1.
Proof.
  intros Hr. apply (reachable_execute [(msg, c)]) in Hr.
  rewrite execute_cons in Hr. exact Hr.
Qed.

(** ** The id counter *)

Lemma transact_counter msg c s :
  match (transact msg c s).2 with
  | Created documentId =>
      documentId = _nextId s ∧ _nextId (transact msg c s).1 = _nextId s + 1
  | _ => _nextId (transact msg c s).1 = _nextId s
  end.
Proof.
  destruct c as [nm body key proof|documentId body|documentId grantee]; cbn.
  - rewrite createDocument_run.
    destruct (0 <? _); [|done].
    destruct (verifyInput _ _ _); [|done].
    by destruct (_nextId s =? MAX_UINT256).
  - rewrite updateDocumentBody_run.
    destruct (exists_ s documentId); [|done].
    by destruct (permitted _ _ _).
  - rewrite grantAccess_run.
    destruct (negb _); [|done].
    destruct (exists_ s documentId); [|done].
    by destruct (permitted _ _ _).
Qed.

Lemma createdIds_execute txs s :
  createdIds (execute txs s).2 =
    idsFrom (_nextId s) (length (createdIds (execute txs s).2))
  ∧ _nextId (execute txs s).1 =
      _nextId s + N.of_nat (length (createdIds (execute txs s).2)).
Proof.
  revert s. induction txs as [|[msg c] rest IH]; intros s.
  - cbn. split; [done|lia].
  - rewrite execute_cons. cbn [fst snd].
    pose proof (transact_counter msg c s) as Hstep.
    destruct (IH (transact msg c s).1) as [IHids IHnext].
    destruct (transact msg c s).2 as [documentId| |r]; cbn [createdIds length idsFrom].
    + destruct Hstep as [-> Hnext]. rewrite Hnext in IHids, IHnext.
      split; [by rewrite <- IHids|lia].
    + by rewrite <- Hstep.
    + by rewrite <- Hstep.
Qed.

Lemma elem_of_idsFrom first n x :
  x ∈ idsFrom first n ↔ first ≤ x < first + N.of_nat n.
Proof.
  revert first. induction n as [|n IH]; intros first; cbn [idsFrom].
  - rewrite elem_of_nil. lia.
  - rewrite elem_of_cons, IH. lia.
Qed.

Lemma idsFrom_increasing first n : StronglySorted N.lt (idsFrom first n).
Proof.
  revert first. induction n as [|n IH]; intros first; cbn [idsFrom]; constructor.
  - apply IH.
  - apply Forall_forall. intros x Hx%elem_of_idsFrom. lia.
Qed.

Lemma idsFrom_NoDup first n : NoDup (idsFrom first n).
Proof.
  revert first. induction n as [|n IH]; intros first; cbn [idsFrom]; constructor.
  - intros Hx%elem_of_idsFrom. lia.
  - apply IH.
Qed.

(** C3: over every trace of transactions from deployment, failed and
    reverted attempts included, the ids returned by the successful
    [createDocument] calls are exactly 1, 2, ..., n in this order: each is
    strictly greater than all earlier ones, none is repeated, 0 is never
    assigned, there is no gap, and [totalDocuments()] then returns n. *)
Theorem ids_come_from_one_counter (txs : list (Msg * Call)) :
  let s := (execute txs initial).1 in
  let ids := createdIds (execute txs initial).2 in
  ids = idsFrom 1 (length ids)
  ∧ view totalDocuments s = Ok (N.of_nat (length ids))
  ∧ StronglySorted N.lt ids
  ∧ NoDup ids
  ∧ (0 ∉ ids)
  ∧ (∀ documentId, documentId ∈ ids ↔ 1 ≤ documentId ≤ N.of_nat (length ids)).
Proof.
  intros s ids.
  destruct (createdIds_execute txs initial) as [Hids Hnext].
  fold ids in Hids, Hnext. fold s in Hnext. cbn in Hids, Hnext.
  split; [exact Hids|].
  split.
  { unfold view, totalDocuments, tx_bind, read. rewrite Hnext.
    destruct (1 + N.of_nat (length ids) <? 1) eqn:Hlt.
    - apply N.ltb_lt in Hlt. lia.
    - cbn. f_equal. lia. }
  rewrite Hids.
  split; [apply idsFrom_increasing|].
  split; [apply idsFrom_NoDup|].
  split.
  - intros Hx%elem_of_idsFrom. lia.
  - intros documentId. rewrite elem_of_idsFrom.
    rewrite <- Hids. lia.
Qed.

(** ** Failures that leave the state alone *)

(** C7: [createDocument] with an empty name reverts with "Name required"
    whatever the other arguments and the state are; the transaction leaves the
    state as it was, so [totalDocuments()] returns what it returned before. *)
Theorem createDocument_empty_name msg encryptedBody encryptedAccessKey inputProof s :
  createDocument msg "" encryptedBody encryptedAccessKey inputProof s =
    Reverted (Error "Name required")
  ∧ transact msg (CreateDocument "" encryptedBody encryptedAccessKey inputProof) s =
      (s, Failed (Error "Name required"))
  ∧ view totalDocuments
      (transact msg (CreateDocument "" encryptedBody encryptedAccessKey inputProof) s).1 =
    view totalDocuments s.
Proof.
  assert (createDocument msg "" encryptedBody encryptedAccessKey inputProof s =
            Reverted (Error "Name required")) as Hrun
    by (by rewrite createDocument_run).
  split; [exact Hrun|]. unfold transact. by rewrite Hrun.
Qed.

(** C6: [grantAccess] with the zero address as grantee reverts with "Invalid
    grantee" for every document id, caller and state, so also when the
    document does not exist or the caller has no permission: the grantee is
    checked first.  The transaction changes nothing. *)
Theorem grantAccess_null_grantee msg documentId s :
  grantAccess msg documentId address0 s = Reverted (Error "Invalid grantee")
  ∧ transact msg (GrantAccess documentId address0) s =
      (s, Failed (Error "Invalid grantee")).
Proof.
  assert (grantAccess msg documentId address0 s = Reverted (Error "Invalid grantee"))
    as Hrun by (by rewrite grantAccess_run).
  split; [exact Hrun|]. unfold transact. by rewrite Hrun.
Qed.

(** ** Views in terms of the storage *)

Lemma documentExists_view documentId s :
  view (documentExists documentId) s = Ok (exists_ s documentId).
Proof. reflexivity. Qed.

Lemma isSenderAllowed_view msg handle s :
  view (FHE_isSenderAllowed msg handle) s = Ok (permitted s handle (msg_sender msg)).
Proof. reflexivity. Qed.

Lemma getDocument_view documentId s :
  exists_ s documentId = true →
  view (getDocument documentId) s = Ok (documentAt s documentId).
Proof.
  intros Hex. unfold view, getDocument, _getDocument, tx_bind, read, require.
  unfold exists_ in Hex. by rewrite Hex.
Qed.

Lemma documentAt_afterUpdate msg documentId newEncryptedBody s :
  documentAt (afterUpdate msg documentId newEncryptedBody s) documentId =
    {| owner := owner (documentAt s documentId);
       name := name (documentAt s documentId);
       encryptedBody := newEncryptedBody;
       accessKey := accessKey (documentAt s documentId);
       createdAt := createdAt (documentAt s documentId);
       updatedAt := block_timestamp msg;
       lastEditorBlock := block_number msg |}.
Proof. unfold documentAt at 1. cbn. by rewrite lookup_insert_eq. Qed.

(** ** Body updates *)


(** ** Frame *)

Lemma transact_other_document msg c s documentId :
  Invariant s → exists_ s documentId = true →
  (∀ body, c ≠ UpdateDocumentBody documentId body) →
  documentAt (transact msg c s).1 documentId = documentAt s documentId.
Proof.
  intros Hinv Hex Hother.
  pose proof (exists_below_next _ _ Hinv Hex) as Hrange.
  destruct c as [nm body key proof|id' body|id' grantee]; unfold transact.
  - rewrite createDocument_run.
    destruct (0 <? _); [|done].
    destruct (verifyInput _ _ _); [|done].
    destruct (_nextId s =? MAX_UINT256); [done|]. cbn.
    unfold documentAt. cbn. rewrite lookup_insert_ne by lia. done.
  - rewrite updateDocumentBody_run.
    destruct (exists_ s id'); [|done].
    destruct (permitted _ _ _); [|done]. cbn.
    unfold documentAt at 1. cbn.
    rewrite lookup_insert_ne; [done|]. intros ->. by eapply Hother.
  - rewrite grantAccess_run.
    destruct (negb _); [|done].
    destruct (exists_ s id'); [|done].
    by destruct (permitted _ _ _).
Qed.

Lemma transact_immutable msg c s documentId :
  Invariant s → exists_ s documentId = true →
  let doc := documentAt s documentId in
  let doc' := documentAt (transact msg c s).1 documentId in
  owner doc' = owner doc ∧ name doc' = name doc
  ∧ accessKey doc' = accessKey doc ∧ createdAt doc' = createdAt doc.
Proof.
  intros Hinv Hex doc doc'. subst doc doc'.
  destruct c as [nm body key proof|id' body|id' grantee].
  - by rewrite transact_other_document.
  - destruct (decide (id' = documentId)) as [->|Hne].
    + unfold transact. rewrite updateDocumentBody_run, Hex.
      destruct (permitted _ _ _); [|done]. cbn.
      by rewrite documentAt_afterUpdate.
    + rewrite transact_other_document; [done..|]. congruence.
  - by rewrite transact_other_document.
Qed.

Lemma execute_immutable txs s documentId :
  Invariant s → exists_ s documentId = true →
  let doc := documentAt s documentId in
  let doc' := documentAt (execute txs s).1 documentId in
  owner doc' = owner doc ∧ name doc' = name doc
  ∧ accessKey doc' = accessKey doc ∧ createdAt doc' = createdAt doc.
Proof.
  cbv zeta. revert s. induction txs as [|[msg c] rest IH]; intros s Hinv Hex; [done|].
  rewrite execute_cons. cbn [fst].
  destruct (transact_immutable msg c s documentId Hinv Hex) as (Ho & Hn & Hk & Hc).
  destruct (IH (transact msg c s).1) as (Ho' & Hn' & Hk' & Hc').
  - by apply Invariant_transact.
  - unfold exists_ in *. by rewrite Ho.
  - by rewrite Ho', Hn', Hk', Hc'.
Qed.

(** C4: once a document exists, no later transaction changes its [owner],
    [name], [accessKey] or [createdAt]; a transaction that is not an
    [updateDocumentBody] of that very document leaves the whole record as it
    was; [updateDocumentBody] writes nothing but the targeted record (and the
    log); [grantAccess] writes no document, and neither the counter nor the
    owner index. *)
Theorem immutability_frame s :
  reachable s →
  (∀ txs documentId, view (documentExists documentId) s = Ok true →
     let doc := documentAt s documentId in
     let doc' := documentAt (execute txs s).1 documentId in
     owner doc' = owner doc ∧ name doc' = name doc
     ∧ accessKey doc' = accessKey doc ∧ createdAt doc' = createdAt doc)
  ∧ (∀ msg c documentId, view (documentExists documentId) s = Ok true →
     (∀ body, c ≠ UpdateDocumentBody documentId body) →
     documentAt (transact msg c s).1 documentId = documentAt s documentId)
  ∧ (∀ msg documentId body,
     let s' := (transact msg (UpdateDocumentBody documentId body) s).1 in
     _nextId s' = _nextId s ∧ _ownedDocuments s' = _ownedDocuments s
     ∧ _sharedDocuments s' = _sharedDocuments s ∧ _isSharedWith s' = _isSharedWith s
     ∧ acl s' = acl s ∧ fheCalls s' = fheCalls s)
  ∧ (∀ msg documentId grantee,
     let s' := (transact msg (GrantAccess documentId grantee) s).1 in
     _documents s' = _documents s ∧ _nextId s' = _nextId s
     ∧ _ownedDocuments s' = _ownedDocuments s).
Proof.
  intros Hinv%reachable_Invariant.
  split; [|split; [|split]].
  - intros txs documentId [= Hex]. by apply execute_immutable.
  - intros msg c documentId [= Hex] Hother. by apply transact_other_document.
  - intros msg documentId body. unfold transact. rewrite updateDocumentBody_run.
    destruct (exists_ s documentId); [|done].
    by destruct (permitted _ _ _).
  - intros msg documentId grantee. unfold transact. rewrite grantAccess_run.
    destruct (negb _); [|done].
    destruct (exists_ s documentId); [|done].
    by destruct (permitted _ _ _).
Qed.

(** ** Successful calls, and what they need *)

Lemma update_succeeds msg documentId body s :
  exists_ s documentId = true →
  permitted s (accessKey (documentAt s documentId)) (msg_sender msg) = true →
  transact msg (UpdateDocumentBody documentId body) s =
    (afterUpdate msg documentId body s, Succeeded).
Proof.
  intros Hex Hperm. unfold transact. by rewrite updateDocumentBody_run, Hex, Hperm.
Qed.

Lemma update_succeeded msg documentId body s s' :
  transact msg (UpdateDocumentBody documentId body) s = (s', Succeeded) →
  exists_ s documentId = true
  ∧ permitted s (accessKey (documentAt s documentId)) (msg_sender msg) = true
  ∧ s' = afterUpdate msg documentId body s.
Proof.
  unfold transact. rewrite updateDocumentBody_run.
  destruct (exists_ s documentId); [|discriminate].
  destruct (permitted _ _ _); [|discriminate].
  by intros [= <-].
Qed.

Lemma grant_succeeds msg documentId grantee s :
  grantee ≠ address0 →
  exists_ s documentId = true →
  permitted s (accessKey (documentAt s documentId)) (msg_sender msg) = true →
  transact msg (GrantAccess documentId grantee) s =
    (afterGrant documentId grantee s, Succeeded).
Proof.
  intros Hg Hex Hperm. unfold transact. rewrite grantAccess_run, Hex, Hperm.
  apply N.eqb_neq in Hg. by rewrite Hg.
Qed.

Lemma grant_succeeded msg documentId grantee s s' :
  transact msg (GrantAccess documentId grantee) s = (s', Succeeded) →
  grantee ≠ address0
  ∧ exists_ s documentId = true
  ∧ permitted s (accessKey (documentAt s documentId)) (msg_sender msg) = true
  ∧ s' = afterGrant documentId grantee s.
Proof.
  unfold transact. rewrite grantAccess_run.
  destruct (grantee =? address0) eqn:Hg; [discriminate|]. cbn.
  destruct (exists_ s documentId); [|discriminate].
  destruct (permitted _ _ _); [|discriminate].
  intros [= <-]. by apply N.eqb_neq in Hg.
Qed.

(** Permissions are only ever added. *)
Lemma acl_transact msg c s : acl s ⊆ acl (transact msg c s).1.
Proof.
  destruct c as [nm body key proof|documentId body|documentId grantee]; unfold transact.
  - rewrite createDocument_run.
    destruct (0 <? _); [|done].
    destruct (verifyInput _ _ _); [|done].
    destruct (_nextId s =? MAX_UINT256); [done|]. cbn. set_solver.
  - rewrite updateDocumentBody_run.
    destruct (exists_ s documentId); [|done].
    by destruct (permitted _ _ _).
  - rewrite grantAccess_run.
    destruct (negb _); [|done].
    destruct (exists_ s documentId); [|done].
    destruct (permitted _ _ _); [|done]. cbn. set_solver.
Qed.

Lemma acl_execute txs s : acl s ⊆ acl (execute txs s).1.
Proof.
  revert s. induction txs as [|[msg c] rest IH]; intros s; [done|].
  rewrite execute_cons. cbn [fst].
  etrans; [apply (acl_transact msg c)|apply IH].
Qed.

Lemma permitted_execute txs s handle who :
  permitted s handle who = true → permitted (execute txs s).1 handle who = true.
Proof.
  unfold permitted. rewrite !bool_decide_eq_true.
  intros Hin. by apply (acl_execute txs s).
Qed.

Lemma exists_execute txs s documentId :
  Invariant s → exists_ s documentId = true →
  exists_ (execute txs s).1 documentId = true
  ∧ accessKey (documentAt (execute txs s).1 documentId) = accessKey (documentAt s documentId).
Proof.
  intros Hinv Hex.
  destruct (execute_immutable txs s documentId Hinv Hex) as (Ho & _ & Hk & _).
  split; [|done]. unfold exists_ in *. by rewrite Ho.
Qed.

(** ** Sharing *)

(** C5: when [grantAccess(id, P)] is called twice by permitted callers for a
    grantee P that is not the zero address, both calls succeed,
    [getSharedDocumentIds(P)] holds [id] exactly once afterwards (the second
    call appends nothing), and the engine grant [FHE.allow(accessKey, P)] is
    made by each of the two calls. *)
Theorem grantAccess_twice_shares_once s msg1 msg2 documentId grantee :
  let handle := accessKey (documentAt s documentId) in
  reachable s →
  grantee ≠ address0 →
  view (documentExists documentId) s = Ok true →
  view (FHE_isSenderAllowed msg1 handle) s = Ok true →
  view (FHE_isSenderAllowed msg2 handle) s = Ok true →
  ∃ s1 s2 shared,
    transact msg1 (GrantAccess documentId grantee) s = (s1, Succeeded)
    ∧ transact msg2 (GrantAccess documentId grantee) s1 = (s2, Succeeded)
    ∧ view (getSharedDocumentIds grantee) s2 = Ok shared
    ∧ count_occ N.eq_dec shared documentId = 1%nat
    ∧ view (getSharedDocumentIds grantee) s1 = Ok shared
    ∧ fheCalls s2 = fheCalls s ++ [Allow handle grantee; Allow handle grantee].
Proof.
  intros handle Hreach Hg [= Hex] [= Hperm1] [= Hperm2]. subst handle.
  pose proof (reachable_Invariant _ Hreach) as Hinv.
  pose proof (Invariant_afterGrant documentId grantee s Hinv) as Hinv1.
  set (s1 := afterGrant documentId grantee s) in *.
  assert (documentAt s1 documentId = documentAt s documentId) as Hdoc by reflexivity.
  assert (isSharedWith s1 documentId grantee = true) as Hflag.
  { subst s1. rewrite isSharedWith_afterGrant. by rewrite decide_True. }
  exists s1, (afterGrant documentId grantee s1), (sharedOf s1 grantee).
  split; [by apply grant_succeeds|].
  split.
  { apply grant_succeeds; [done|by unfold exists_; rewrite Hdoc|].
    rewrite Hdoc. unfold permitted in *. rewrite bool_decide_eq_true in *.
    subst s1. cbn. set_solver. }
  split.
  { unfold view, getSharedDocumentIds, read. f_equal.
    rewrite sharedOf_afterGrant. rewrite decide_False; [done|].
    intros [_ Hcontra]. congruence. }
  split.
  { rewrite (inv_shared _ Hinv1). by rewrite Hflag. }
  split; [reflexivity|].
  cbn. rewrite <- app_assoc. reflexivity.
Qed.

(** ** Timestamps *)

Lemma execute_other_document txs s documentId :
  Invariant s → exists_ s documentId = true →
  Forall (λ tx : Msg * Call, ∀ body, tx.2 ≠ UpdateDocumentBody documentId body) txs →
  documentAt (execute txs s).1 documentId = documentAt s documentId.
Proof.
  intros Hinv Hex Hall. revert s Hinv Hex.
  induction Hall as [|[msg c] rest Hc _ IH]; intros s Hinv Hex; [done|].
  rewrite execute_cons. cbn [fst].
  pose proof (transact_other_document msg c s documentId Hinv Hex Hc) as Hsame.
  rewrite IH, Hsame; [done| |].
  - by apply Invariant_transact.
  - unfold exists_ in *. by rewrite Hsame.
Qed.

(** C8 (amended): each successful [updateDocumentBody] sets [updatedAt] to the
    timestamp of the block it runs in.  So for two successive successful
    updates of a document, with any transactions other than updates of that
    document in between, [getDocument] returns after each the timestamp of
    its block, and [updatedAt] grows strictly exactly when the second block's
    timestamp is strictly larger than the first's; two updates in one block
    leave it equal. *)
Theorem updatedAt_is_block_timestamp s msg1 body1 s1 between msg2 body2 s2 documentId :
  reachable s →
  transact msg1 (UpdateDocumentBody documentId body1) s = (s1, Succeeded) →
  Forall (λ tx : Msg * Call, ∀ body, tx.2 ≠ UpdateDocumentBody documentId body) between →
  transact msg2 (UpdateDocumentBody documentId body2) (execute between s1).1 = (s2, Succeeded) →
  ∃ doc1 doc2,
    view (getDocument documentId) (execute between s1).1 = Ok doc1
    ∧ view (getDocument documentId) s2 = Ok doc2
    ∧ updatedAt doc1 = block_timestamp msg1
    ∧ updatedAt doc2 = block_timestamp msg2
    ∧ (updatedAt doc1 < updatedAt doc2 ↔ block_timestamp msg1 < block_timestamp msg2)
    ∧ (block_timestamp msg1 = block_timestamp msg2 → updatedAt doc1 = updatedAt doc2).
Proof.
  intros Hreach Hfirst Hbetween Hsecond.
  pose proof (reachable_Invariant _ Hreach) as Hinv.
  destruct (update_succeeded _ _ _ _ _ Hfirst) as (Hex & _ & ->).
  destruct (update_succeeded _ _ _ _ _ Hsecond) as (Hex' & _ & ->).
  pose proof (Invariant_afterUpdate msg1 documentId body1 s Hinv Hex) as Hinv1.
  assert (exists_ (afterUpdate msg1 documentId body1 s) documentId = true) as Hex1.
  { unfold exists_ in *. by rewrite documentAt_afterUpdate. }
  pose proof (execute_other_document between _ documentId Hinv1 Hex1 Hbetween) as Hsame.
  eexists _, _.
  split; [by apply getDocument_view|].
  split.
  { apply getDocument_view. unfold exists_ in *. by rewrite documentAt_afterUpdate. }
  rewrite Hsame, !documentAt_afterUpdate. cbn.
  repeat split; auto.
Qed.

(** ** Permission, not ownership *)

(** C10: a caller needs permission on the access key, not ownership: every
    permitted caller can [updateDocumentBody] and [grantAccess]; whoever was
    granted access is permitted from then on, so a grantee can edit and can
    grant further; and the owner may be the grantee of their own document,
    which appends the id to the owner's shared list (once), so that it shows
    in both [getOwnedDocumentIds(owner)] and [getSharedDocumentIds(owner)]. *)
Theorem permission_not_ownership s documentId :
  let doc := documentAt s documentId in
  reachable s →
  view (documentExists documentId) s = Ok true →
  (∀ msg, view (FHE_isSenderAllowed msg (accessKey doc)) s = Ok true →
     (∀ body, (transact msg (UpdateDocumentBody documentId body) s).2 = Succeeded)
     ∧ (∀ grantee, grantee ≠ address0 →
          (transact msg (GrantAccess documentId grantee) s).2 = Succeeded))
  ∧ (∀ msg grantee s1,
     transact msg (GrantAccess documentId grantee) s = (s1, Succeeded) →
     ∀ txs msg', msg_sender msg' = grantee →
       let s2 := (execute txs s1).1 in
       (∀ body, (transact msg' (UpdateDocumentBody documentId body) s2).2 = Succeeded)
       ∧ (∀ other, other ≠ address0 →
            (transact msg' (GrantAccess documentId other) s2).2 = Succeeded))
  ∧ (∀ msg, view (FHE_isSenderAllowed msg (accessKey doc)) s = Ok true →
     ∃ s1, transact msg (GrantAccess documentId (owner doc)) s = (s1, Succeeded)
       ∧ (isSharedWith s documentId (owner doc) = false →
            view (getSharedDocumentIds (owner doc)) s1 =
              Ok (sharedOf s (owner doc) ++ [documentId]))
       ∧ (∃ owned shared,
            view (getOwnedDocumentIds (owner doc)) s1 = Ok owned
            ∧ view (getSharedDocumentIds (owner doc)) s1 = Ok shared
            ∧ documentId ∈ owned ∧ documentId ∈ shared)).
Proof.
  intros doc Hreach [= Hex]. subst doc.
  pose proof (reachable_Invariant _ Hreach) as Hinv.
  split; [|split].
  - intros msg [= Hperm]. split.
    + intros body. by rewrite update_succeeds.
    + intros grantee Hg. by rewrite grant_succeeds.
  - intros msg grantee s1 Hgrant txs msg' Hsender s2.
    destruct (grant_succeeded _ _ _ _ _ Hgrant) as (Hg & _ & _ & ->).
    pose proof (Invariant_afterGrant documentId grantee s Hinv) as Hinv1.
    assert (exists_ (afterGrant documentId grantee s) documentId = true) as Hex1 by done.
    destruct (exists_execute txs _ documentId Hinv1 Hex1) as [Hex2 Hkey2]. fold s2 in Hex2, Hkey2.
    assert (permitted s2 (accessKey (documentAt s2 documentId)) (msg_sender msg') = true)
      as Hperm2.
    { rewrite Hkey2, Hsender. apply permitted_execute.
      unfold permitted. rewrite bool_decide_eq_true. cbn. set_solver. }
    split.
    + intros body. by rewrite update_succeeds.
    + intros other Hother. by rewrite grant_succeeds.
  - intros msg [= Hperm].
    assert (owner (documentAt s documentId) ≠ address0) as Howner.
    { unfold exists_ in Hex. apply negb_true_iff, N.eqb_neq in Hex. exact Hex. }
    eexists. split; [by apply grant_succeeds|].
    split.
    { intros Hflag. unfold view, getSharedDocumentIds, read. f_equal.
      rewrite sharedOf_afterGrant. by rewrite decide_True. }
    eexists _, _. split; [reflexivity|]. split; [reflexivity|].
    split.
    + apply (inv_owned _ Hinv). by apply exists_lookup.
    + rewrite sharedOf_afterGrant.
      destruct (isSharedWith s documentId (owner (documentAt s documentId))) eqn:Hflag.
      * rewrite decide_False by (intros [? ?]; congruence).
        pose proof (inv_shared _ Hinv documentId (owner (documentAt s documentId))) as Hcount.
        rewrite Hflag in Hcount.
        apply list_elem_of_In, (count_occ_In N.eq_dec). lia.
      * rewrite decide_True by done. apply elem_of_app. right. by apply list_elem_of_singleton.
Qed.

End VaultFacts.

(** ** The theorems at the test scenarios *)

Lemma genesis_reachable : reachable genesis.
Proof.
  exists [(at_block ownerA 1, CreateDocument "Genesis" "" 77 someProof)]. reflexivity.
Defined.


Lemma immutability_frame_witness :
  reachable genesis
  ∧ let later := (execute [ (at_block ownerA 2, UpdateDocumentBody 1 "v2");
                            (at_block ownerA 3, GrantAccess 1 bob);
                            (at_block bob 4, CreateDocument "Other" "" 78 someProof);
                            (at_block bob 5, UpdateDocumentBody 1 "v3") ] genesis).1 in
    owner (documentAt later 1) = owner (documentAt genesis 1)
    ∧ name (documentAt later 1) = name (documentAt genesis 1)
    ∧ accessKey (documentAt later 1) = accessKey (documentAt genesis 1)
    ∧ createdAt (documentAt later 1) = createdAt (documentAt genesis 1).
Proof.
  split; [exact genesis_reachable|].
  apply (immutability_frame genesis genesis_reachable).
  vm_compute. reflexivity.
Defined.

Lemma grantAccess_twice_shares_once_witness :
  reachable genesis
  ∧ bob ≠ address0
  ∧ view (documentExists 1) genesis = Ok true
  ∧ ∃ s1 s2 shared,
      transact (at_block ownerA 2) (GrantAccess 1 bob) genesis = (s1, Succeeded)
      ∧ transact (at_block ownerA 3) (GrantAccess 1 bob) s1 = (s2, Succeeded)
      ∧ view (getSharedDocumentIds bob) s2 = Ok shared
      ∧ count_occ N.eq_dec shared 1 = 1%nat
      ∧ view (getSharedDocumentIds bob) s1 = Ok shared
      ∧ fheCalls s2 = fheCalls genesis ++ [Allow 77 bob; Allow 77 bob].
Proof.
  split; [exact genesis_reachable|].
  split; [discriminate|].
  split; [vm_compute; reflexivity|].
  apply (grantAccess_twice_shares_once genesis (at_block ownerA 2) (at_block ownerA 3) 1 bob
           genesis_reachable).
  - discriminate.
  - vm_compute. reflexivity.
  - vm_compute. reflexivity.
  - vm_compute. reflexivity.
Defined.

(** Two updates of one document in one block: both succeed and [updatedAt]
    is the same after the second as after the first. *)
Lemma updatedAt_same_block_not_strict :
  let msg := at_block ownerA 2 in
  let first := transact msg (UpdateDocumentBody 1 "first") genesis in
  let second := transact msg (UpdateDocumentBody 1 "second") first.1 in
  first.2 = Succeeded ∧ second.2 = Succeeded
  ∧ ∃ doc1 doc2,
      view (getDocument 1) first.1 = Ok doc1
      ∧ view (getDocument 1) second.1 = Ok doc2
      ∧ encryptedBody doc1 = "first" ∧ encryptedBody doc2 = "second"
      ∧ ¬ (updatedAt doc1 < updatedAt doc2).
Proof.
  cbv zeta.
  split; [vm_compute; reflexivity|].
  split; [vm_compute; reflexivity|].
  eexists _, _.
  split; [vm_compute; reflexivity|].
  split; [vm_compute; reflexivity|].
  split; [reflexivity|].
  split; [reflexivity|].
  cbn. lia.
Qed.

Lemma updatedAt_is_block_timestamp_witness :
  let s1 := (transact (at_block ownerA 2) (UpdateDocumentBody 1 "first") genesis).1 in
  let between := [(at_block ownerA 3, GrantAccess 1 bob)] in
  let s1' := (execute between s1).1 in
  let s2 := (transact (at_block bob 4) (UpdateDocumentBody 1 "second") s1').1 in
  ∃ doc1 doc2,
    view (getDocument 1) s1' = Ok doc1
    ∧ view (getDocument 1) s2 = Ok doc2
    ∧ updatedAt doc1 = 1700000024
    ∧ updatedAt doc2 = 1700000048
    ∧ (updatedAt doc1 < updatedAt doc2 ↔ 1700000024 < 1700000048)
    ∧ (1700000024 = 1700000048 → updatedAt doc1 = updatedAt doc2).
Proof.
  cbv zeta.
  apply (updatedAt_is_block_timestamp genesis (at_block ownerA 2) "first" _
           [(at_block ownerA 3, GrantAccess 1 bob)] (at_block bob 4) "second" _ 1
           genesis_reachable).
  - vm_compute. reflexivity.
  - repeat constructor; discriminate.
  - vm_compute. reflexivity.
Defined.

Lemma permission_not_ownership_witness :
  reachable genesis
  ∧ view (documentExists 1) genesis = Ok true
  ∧ ∃ s1, transact (at_block ownerA 2) (GrantAccess 1 ownerA) genesis = (s1, Succeeded)
      ∧ (isSharedWith genesis 1 ownerA = false →
           view (getSharedDocumentIds ownerA) s1 = Ok (sharedOf genesis ownerA ++ [1]))
      ∧ (∃ owned shared,
           view (getOwnedDocumentIds ownerA) s1 = Ok owned
           ∧ view (getSharedDocumentIds ownerA) s1 = Ok shared
           ∧ 1 ∈ owned ∧ 1 ∈ shared).
Proof.
  split; [exact genesis_reachable|].
  split; [vm_compute; reflexivity|].
  apply (permission_not_ownership genesis 1 genesis_reachable).
  - vm_compute. reflexivity.
  - vm_compute. reflexivity.
Defined.

(** A grantee that does not own the document edits it and grants further. *)
Example grantee_grants_further :
  (execute
    [ (at_block ownerA 1, CreateDocument "Doc" "" 77 someProof);
      (at_block ownerA 2, GrantAccess 1 bob);
      (at_block bob 3, GrantAccess 1 carol);
      (at_block carol 4, UpdateDocumentBody 1 "by carol") ] initial).2
  = [Created 1; Succeeded; Succeeded; Succeeded].
Proof. vm_compute. reflexivity. Qed.

(** ** The repository's test scenarios *)

Example idsFrom_1_3 : idsFrom 1 3 = [1; 2; 3].
Proof. reflexivity. Qed.

Example test_genesis :
  view (getDocument 1) genesis =
    Ok {| owner := ownerA; name := "Genesis"; encryptedBody := ""; accessKey := 77;
          createdAt := 1700000012; updatedAt := 1700000012; lastEditorBlock := 1 |}.
Proof. vm_compute. reflexivity. Qed.

(** "blocks unauthorized edits until access is granted" *)
Example test_blocks_unauthorized :
  let '(s, rs) := execute
    [ (at_block ownerA 1, CreateDocument "Doc" "" 77 someProof);
      (at_block bob 2, UpdateDocumentBody 1 "ciphertext");
      (at_block ownerA 3, GrantAccess 1 bob);
      (at_block bob 4, UpdateDocumentBody 1 "ciphertext") ] initial in
  rs = [Created 1; Failed (Error "Sender not authorized for key"); Succeeded; Succeeded]
  ∧ encryptedBody (documentAt s 1) = "ciphertext"
  ∧ view (getSharedDocumentIds bob) s = Ok [1].
Proof. vm_compute. auto. Qed.

(** "tracks owned documents and total count" *)
Example test_owned_and_total :
  let '(s, rs) := execute
    [ (at_block ownerA 1, CreateDocument "A" "" 77 someProof);
      (at_block ownerA 2, CreateDocument "B" "payload" 78 someProof) ] initial in
  view (getOwnedDocumentIds ownerA) s = Ok [1; 2]
  ∧ view totalDocuments s = Ok 2.
Proof. vm_compute. auto. Qed.

(** * Properties of the envelope *)

(** ** Bytes *)

Lemma to_N_lt b : Byte.to_N b < 256.
Proof. pose proof (Byte.to_N_bounded b). lia. Qed.

Lemma to_N_toUint8 n : n < 256 → Byte.to_N (toUint8 n) = n.
Proof.
  intros Hn. unfold toUint8. rewrite N.mod_small by done.
  destruct (Byte.of_N n) as [b|] eqn:Hb.
  - by apply Byte.to_of_N.
  - apply Byte.of_N_None_iff in Hb. lia.
Qed.

Lemma toUint8_to_N b : toUint8 (Byte.to_N b) = b.
Proof.
  unfold toUint8. rewrite N.mod_small by apply to_N_lt.
  by rewrite Byte.of_to_N.
Qed.

Lemma map_toUint8_to_N (bytes : list Byte.byte) :
  map toUint8 (map Byte.to_N bytes) = bytes.
Proof.
  induction bytes as [|b rest IH]; [done|]. cbn. by rewrite toUint8_to_N, IH.
Qed.

Lemma map_to_N_toUint8 (l : list N) :
  Forall (λ n, n < 256) l → map Byte.to_N (map toUint8 l) = l.
Proof.
  induction 1 as [|n rest Hn _ IH]; [done|]. cbn. by rewrite to_N_toUint8, IH.
Qed.

Lemma Forall_to_N_lt (bytes : list Byte.byte) :
  Forall (λ n, n < 256) (map Byte.to_N bytes).
Proof. apply Forall_forall. intros n [b [-> _]]%list_elem_of_fmap. apply to_N_lt. Qed.

(** ** Base64 *)

(** [lia] with the divisions and remainders by constants spelled out. *)
Local Ltac dlia := zify; Z.to_euclidean_division_equations; lia.

Lemma list_ind3 {A} (P : list A → Prop) :
  P [] → (∀ a, P [a]) → (∀ a b, P [a; b]) →
  (∀ a b c rest, P rest → P (a :: b :: c :: rest)) →
  ∀ l, P l.
Proof.
  intros H0 H1 H2 H3.
  fix IH 1. intros [|a [|b [|c rest]]]; [done..|]. apply H3, IH.
Qed.

(** Case analysis on a number known to be below 64. *)
Local Ltac below_64 v Hv :=
  destruct v as [|v]; [|do 6 (try destruct v as [v|v|])];
  try (exfalso; clear -Hv; lia).

Lemma base64_value_char v : v < 64 → base64_value (base64_char v) = Some v.
Proof. intros Hv. below_64 v Hv; reflexivity. Qed.

Lemma base64_char_plain v :
  v < 64 →
  isAsciiWhitespace (base64_char v) = false ∧ (base64_char v =? base64_pad) = false.
Proof. intros Hv. below_64 v Hv; split; reflexivity. Qed.

Lemma base64_values_cons v rest :
  v < 64 →
  base64_values (base64_char v :: rest) =
    match base64_values rest with
    | Some vs => Some (v :: vs)
    | None => None
    end.
Proof. intros Hv. cbn [base64_values]. by rewrite base64_value_char. Qed.

Lemma base64_padding_step {A} (a b c : A) (rest : list A) :
  (length (a :: b :: c :: rest) mod 3 = length rest mod 3)%nat.
Proof.
  cbn [length]. replace (S (S (S (length rest)))) with (length rest + 1 * 3)%nat by dlia.
  by rewrite Nat.Div0.mod_add.
Qed.

(** The characters [btoa] writes for the bytes are of the alphabet, and
    their values give the bytes back. *)
Lemma base64_body_values (l : list N) :
  Forall (λ n, n < 256) l →
  Forall plainChar (base64_body l)
  ∧ ∃ values, base64_values (base64_body l) = Some values ∧ base64_bytes values = l.
Proof.
  induction l as [|a|a b|a b c rest IH] using list_ind3; intros Hl.
  - split; [constructor|]. by exists [].
  - apply Forall_cons in Hl as [Ha _].
    cbn [base64_body]. cbv zeta.
    assert (a * 16 / 64 < 64) by dlia. assert ((a * 16) mod 64 < 64) by dlia.
    split; [repeat constructor; by apply base64_char_plain|].
    eexists. rewrite !base64_values_cons by done. cbn [base64_values].
    split; [reflexivity|]. cbn [base64_bytes]. f_equal. dlia.
  - apply Forall_cons in Hl as [Ha [Hb _]%Forall_cons].
    cbn [base64_body]. cbv zeta.
    set (n := a * 1024 + b * 4).
    assert (n / 4096 < 64) by dlia. assert ((n / 64) mod 64 < 64) by dlia.
    assert (n mod 64 < 64) by dlia.
    split; [repeat constructor; by apply base64_char_plain|].
    eexists. rewrite !base64_values_cons by done. cbn [base64_values].
    split; [reflexivity|]. cbn [base64_bytes]. cbv zeta. subst n.
    repeat f_equal; dlia.
  - apply Forall_cons in Hl as [Ha [Hb [Hc Hrest]%Forall_cons]%Forall_cons].
    destruct (IH Hrest) as [Hplain (values & Hvalues & Hbytes)].
    cbn [base64_body]. cbv zeta.
    set (n := a * 65536 + b * 256 + c).
    assert (n / 262144 < 64) by dlia. assert ((n / 4096) mod 64 < 64) by dlia.
    assert ((n / 64) mod 64 < 64) by dlia. assert (n mod 64 < 64) by dlia.
    split; [repeat (constructor; [by apply base64_char_plain|]); exact Hplain|].
    eexists. rewrite !base64_values_cons by done. rewrite Hvalues.
    split; [reflexivity|]. cbn [base64_bytes]. cbv zeta. rewrite Hbytes. subst n.
    repeat f_equal; dlia.
Qed.

Lemma base64_lengths (l : list N) :
  (length (base64_body l ++ base64_padding l) mod 4 = 0
   ∧ length (base64_body l) mod 4 ≠ 1)%nat.
Proof.
  induction l as [|a|a b|a b c rest IH] using list_ind3; [by cbn..|].
  unfold base64_padding. rewrite base64_padding_step.
  fold (base64_padding rest).
  cbn [base64_body]. cbv zeta. cbn [app length].
  destruct IH as [IH1 IH2].
  set (k := length (base64_body rest ++ base64_padding rest)) in *.
  set (j := length (base64_body rest)) in *.
  split.
  - replace (S (S (S (S k)))) with (k + 1 * 4)%nat by dlia. by rewrite Nat.Div0.mod_add.
  - replace (S (S (S (S j)))) with (j + 1 * 4)%nat by dlia. by rewrite Nat.Div0.mod_add.
Qed.

Lemma removePadding_plain (body : list N) :
  Forall plainChar body →
  removePadding body = body
  ∧ removePadding (body ++ [base64_pad]) = body
  ∧ removePadding (body ++ [base64_pad; base64_pad]) = body.
Proof.
  intros Hplain. unfold removePadding.
  assert (match rev body with
          | last :: _ => (last =? base64_pad) = false
          | [] => True
          end) as Hlast.
  { destruct (rev body) as [|last front] eqn:Hrev; [done|].
    assert (last ∈ body) as Hin.
    { apply list_elem_of_In, in_rev. rewrite Hrev. by left. }
    rewrite Forall_forall in Hplain. by apply Hplain. }
  rewrite !rev_app_distr. cbn [rev app].
  destruct (rev body) as [|last front] eqn:Hrev.
  - apply (f_equal (@rev N)) in Hrev. rewrite rev_involutive in Hrev. subst body. by cbn.
  - rewrite Hlast. cbn.
    replace (rev front ++ [last]) with (rev (rev body)) by (by rewrite Hrev).
    by rewrite rev_involutive.
Qed.

Lemma filter_plain (data : list N) :
  Forall (λ c, isAsciiWhitespace c = false) data →
  filter (λ c, isAsciiWhitespace c = false) data = data.
Proof.
  induction 1 as [|c rest Hc _ IH]; [done|].
  rewrite filter_cons, decide_True by done. by rewrite IH.
Qed.

(** [atob(btoa(binary))] is [binary]. *)
Lemma atob_btoa (binary : list N) :
  Forall (λ n, n < 256) binary →
  ∃ text, btoa binary = Resolved text ∧ atob text = Resolved binary.
Proof.
  intros Hbytes. unfold btoa.
  assert (forallb (λ c, c <=? 0xFF) binary = true) as ->.
  { apply forallb_forall. intros c Hc%list_elem_of_In.
    rewrite Forall_forall in Hbytes. apply N.leb_le. specialize (Hbytes c Hc). lia. }
  eexists. split; [reflexivity|].
  destruct (base64_body_values binary Hbytes) as [Hplain (values & Hvalues & Hdecoded)].
  destruct (base64_lengths binary) as [Hlen Hbody].
  destruct (removePadding_plain _ Hplain) as (Hpad0 & Hpad1 & Hpad2).
  unfold atob. cbv zeta.
  rewrite filter_plain.
  2:{ apply Forall_app. split.
      - eapply Forall_impl; [exact Hplain|]. by intros c [? _].
      - unfold base64_padding.
        destruct (length binary mod 3)%nat as [|[|[|?]]]; repeat constructor. }
  rewrite Hlen. cbn [Nat.eqb].
  assert (removePadding (base64_body binary ++ base64_padding binary) = base64_body binary)
    as ->.
  { unfold base64_padding.
    destruct (length binary mod 3)%nat as [|[|[|?]]]; rewrite ?app_nil_r; done. }
  destruct (length (base64_body binary) mod 4 =? 1)%nat eqn:Hone.
  { apply Nat.eqb_eq in Hone. done. }
  by rewrite Hvalues, Hdecoded.
Qed.

(** ** UTF-8 *)

(** Settles the comparisons of the goal that [lia] can decide. *)
Local Ltac settle :=
  repeat first
    [ progress cbn [andb orb negb app bytes_needed bytes_seen code_point
                    lower_boundary upper_boundary utf8_reset]
    | match goal with
      | |- context [?a <=? ?b] =>
          first [ rewrite (proj2 (N.leb_le a b)) by lia
                | rewrite (proj2 (N.leb_gt a b)) by lia ]
      | |- context [?a <? ?b] =>
          first [ rewrite (proj2 (N.ltb_lt a b)) by lia
                | rewrite (proj2 (N.ltb_ge a b)) by lia ]
      | |- context [?a =? ?b] =>
          first [ rewrite (proj2 (N.eqb_eq a b)) by lia
                | rewrite (proj2 (N.eqb_neq a b)) by lia ]
      end ].

Lemma utf8_step_ascii b :
  b ≤ 0x7F → utf8_step utf8_reset b = (utf8_reset, [b]).
Proof. intros Hb. unfold utf8_step, utf8_lead. by settle. Qed.

Lemma utf8_step_lead2 b :
  0xC2 ≤ b ≤ 0xDF →
  utf8_step utf8_reset b =
    ({| code_point := b mod 32; bytes_seen := 0; bytes_needed := 1;
        lower_boundary := 0x80; upper_boundary := 0xBF |}, []).
Proof. intros Hb. unfold utf8_step, utf8_lead. by settle. Qed.

Lemma utf8_step_lead3 b :
  0xE0 ≤ b ≤ 0xEF →
  utf8_step utf8_reset b =
    ({| code_point := b mod 16; bytes_seen := 0; bytes_needed := 2;
        lower_boundary := if b =? 0xE0 then 0xA0 else 0x80;
        upper_boundary := if b =? 0xED then 0x9F else 0xBF |}, []).
Proof. intros Hb. unfold utf8_step, utf8_lead. by settle. Qed.

Lemma utf8_step_lead4 b :
  0xF0 ≤ b ≤ 0xF4 →
  utf8_step utf8_reset b =
    ({| code_point := b mod 8; bytes_seen := 0; bytes_needed := 3;
        lower_boundary := if b =? 0xF0 then 0x90 else 0x80;
        upper_boundary := if b =? 0xF4 then 0x8F else 0xBF |}, []).
Proof. intros Hb. unfold utf8_step, utf8_lead. by settle. Qed.

Lemma utf8_step_last cp seen needed lo hi b :
  needed ≠ 0 → seen + 1 = needed → lo ≤ b ≤ hi →
  utf8_step {| code_point := cp; bytes_seen := seen; bytes_needed := needed;
               lower_boundary := lo; upper_boundary := hi |} b =
    (utf8_reset, [cp * 64 + b mod 64]).
Proof. intros Hn Hs Hb. unfold utf8_step. by settle. Qed.

Lemma utf8_step_more cp seen needed lo hi b :
  needed ≠ 0 → seen + 1 ≠ needed → lo ≤ b ≤ hi →
  utf8_step {| code_point := cp; bytes_seen := seen; bytes_needed := needed;
               lower_boundary := lo; upper_boundary := hi |} b =
    ({| code_point := cp * 64 + b mod 64; bytes_seen := seen + 1;
        bytes_needed := needed; lower_boundary := 0x80; upper_boundary := 0xBF |}, []).
Proof. intros Hn Hs Hb. unfold utf8_step. by settle. Qed.

(** The digits of a code point in base 64, as the encoder takes them. *)
Lemma utf8_digits2 cp :
  cp ≤ 0x7FF →
  ∃ a b, a < 32 ∧ b < 64 ∧ cp = a * 64 + b ∧ cp / 64 = a ∧ cp mod 64 = b.
Proof. intros Hcp. exists (cp / 64), (cp mod 64). dlia. Qed.

Lemma utf8_digits3 cp :
  cp ≤ 0xFFFF →
  ∃ a b c, a < 16 ∧ b < 64 ∧ c < 64 ∧ cp = a * 4096 + b * 64 + c
    ∧ cp / 4096 = a ∧ (cp / 64) mod 64 = b ∧ cp mod 64 = c.
Proof. intros Hcp. exists (cp / 4096), ((cp / 64) mod 64), (cp mod 64). dlia. Qed.

Lemma utf8_digits4 cp :
  cp < 0x110000 →
  ∃ a b c d, a < 5 ∧ b < 64 ∧ c < 64 ∧ d < 64
    ∧ cp = a * 262144 + b * 4096 + c * 64 + d
    ∧ cp / 262144 = a ∧ (cp / 4096) mod 64 = b ∧ (cp / 64) mod 64 = c ∧ cp mod 64 = d.
Proof.
  intros Hcp.
  exists (cp / 262144), ((cp / 4096) mod 64), ((cp / 64) mod 64), (cp mod 64). dlia.
Qed.

Lemma utf8_trail_bits a : a < 64 → (0x80 + a) mod 64 = a.
Proof. intros Ha. dlia. Qed.

Lemma utf8_lead2_bits a : a < 32 → (0xC0 + a) mod 32 = a.
Proof. intros Ha. dlia. Qed.

Lemma utf8_lead3_bits a : a < 16 → (0xE0 + a) mod 16 = a.
Proof. intros Ha. dlia. Qed.

Lemma utf8_lead4_bits a : a < 8 → (0xF0 + a) mod 8 = a.
Proof. intros Ha. dlia. Qed.

Lemma utf8_encode1_bytes cp :
  isScalar cp → Forall (λ n, n < 256) (utf8_encode1 cp).
Proof.
  intros [Hmax _]. unfold utf8_encode1.
  destruct (cp <=? 0x7F) eqn:H1; [apply N.leb_le in H1|apply N.leb_gt in H1].
  { repeat constructor. lia. }
  destruct (cp <=? 0x7FF) eqn:H2; [apply N.leb_le in H2|apply N.leb_gt in H2].
  { destruct (utf8_digits2 cp H2) as (a & b & Ha & Hb & _ & -> & ->).
    repeat constructor; lia. }
  destruct (cp <=? 0xFFFF) eqn:H3; [apply N.leb_le in H3|apply N.leb_gt in H3].
  { destruct (utf8_digits3 cp H3) as (a & b & c & Ha & Hb & Hc & _ & -> & -> & ->).
    repeat constructor; lia. }
  destruct (utf8_digits4 cp Hmax)
    as (a & b & c & d & Ha & Hb & Hc & Hd & _ & -> & -> & -> & ->).
  repeat constructor; lia.
Qed.

(** The decoder reads the bytes of one scalar value back as that value, and
    is then in its initial state. *)
Lemma utf8_run_encode1 cp rest :
  isScalar cp →
  utf8_run utf8_reset (utf8_encode1 cp ++ rest) = cp :: utf8_run utf8_reset rest.
Proof.
  intros [Hmax Hsurrogate]. unfold utf8_encode1.
  destruct (cp <=? 0x7F) eqn:H1; [apply N.leb_le in H1|apply N.leb_gt in H1].
  { cbn [app utf8_run]. by rewrite utf8_step_ascii. }
  destruct (cp <=? 0x7FF) eqn:H2; [apply N.leb_le in H2|apply N.leb_gt in H2].
  { destruct (utf8_digits2 cp H2) as (a & b & Ha & Hb & Hcp & -> & ->).
    cbn [app utf8_run].
    rewrite utf8_step_lead2 by lia.
    rewrite utf8_step_last by lia.
    rewrite utf8_lead2_bits, utf8_trail_bits by done.
    cbn [app]. f_equal. lia. }
  destruct (cp <=? 0xFFFF) eqn:H3; [apply N.leb_le in H3|apply N.leb_gt in H3].
  { destruct (utf8_digits3 cp H3) as (a & b & c & Ha & Hb & Hc & Hcp & -> & -> & ->).
    cbn [app utf8_run].
    rewrite utf8_step_lead3 by lia.
    rewrite utf8_lead3_bits by done.
    destruct (0xE0 + a =? 0xE0) eqn:E0;
      [apply N.eqb_eq in E0|apply N.eqb_neq in E0];
      (destruct (0xE0 + a =? 0xED) eqn:ED;
        [apply N.eqb_eq in ED|apply N.eqb_neq in ED]);
      rewrite utf8_step_more by lia;
      rewrite utf8_step_last by lia;
      rewrite !utf8_trail_bits by done;
      cbn [app]; f_equal; lia. }
  destruct (utf8_digits4 cp Hmax)
    as (a & b & c & d & Ha & Hb & Hc & Hd & Hcp & -> & -> & -> & ->).
  cbn [app utf8_run].
  rewrite utf8_step_lead4 by lia.
  rewrite utf8_lead4_bits by lia.
  destruct (0xF0 + a =? 0xF0) eqn:F0;
    [apply N.eqb_eq in F0|apply N.eqb_neq in F0];
    (destruct (0xF0 + a =? 0xF4) eqn:F4;
      [apply N.eqb_eq in F4|apply N.eqb_neq in F4]);
    rewrite utf8_step_more by lia;
    rewrite utf8_step_more by lia;
    rewrite utf8_step_last by lia;
    rewrite !utf8_trail_bits by done;
    cbn [app]; f_equal; lia.
Qed.

Lemma utf8_run_encode (cps : list N) :
  Forall isScalar cps →
  utf8_run utf8_reset (flat_map utf8_encode1 cps) = cps.
Proof.
  induction 1 as [|cp rest Hcp _ IH]; [done|].
  cbn [flat_map]. by rewrite utf8_run_encode1, IH.
Qed.

Lemma utf8_encode_bytes (cps : list N) :
  Forall isScalar cps → Forall (λ n, n < 256) (flat_map utf8_encode1 cps).
Proof.
  induction 1 as [|cp rest Hcp _ IH]; [constructor|].
  cbn [flat_map]. apply Forall_app. split; [by apply utf8_encode1_bytes|done].
Qed.

(** ** UTF-16 *)

Lemma isHighSurrogate_spec u :
  isHighSurrogate u = true ↔ 0xD800 ≤ u ≤ 0xDBFF.
Proof. unfold isHighSurrogate. rewrite andb_true_iff, !N.leb_le. lia. Qed.

Lemma isLowSurrogate_spec u :
  isLowSurrogate u = true ↔ 0xDC00 ≤ u ≤ 0xDFFF.
Proof. unfold isLowSurrogate. rewrite andb_true_iff, !N.leb_le. lia. Qed.

Lemma utf16_pair c d :
  0xD800 ≤ c ≤ 0xDBFF → 0xDC00 ≤ d ≤ 0xDFFF →
  let cp := 0x10000 + (c - 0xD800) * 0x400 + (d - 0xDC00) in
  isScalar cp ∧ utf16_encode1 cp = [c; d].
Proof.
  intros Hc Hd cp.
  assert (∃ x y, x < 0x400 ∧ y < 0x400 ∧ c = 0xD800 + x ∧ d = 0xDC00 + y)
    as (x & y & Hx & Hy & -> & ->).
  { exists (c - 0xD800), (d - 0xDC00). lia. }
  assert (cp = 0x10000 + x * 0x400 + y) as -> by (subst cp; lia).
  split; [unfold isScalar; lia|].
  unfold utf16_encode1.
  rewrite (proj2 (N.ltb_ge _ _)) by lia.
  replace (0x10000 + x * 0x400 + y - 0x10000) with (x * 0x400 + y) by lia.
  f_equal; [|f_equal]; f_equal; dlia.
Qed.

(** On a well-formed string the conversion to scalar values loses nothing. *)
Lemma toScalarValues_wellFormed (s : list N) :
  isWellFormed s = true →
  Forall isScalar (toScalarValues s)
  ∧ flat_map utf16_encode1 (toScalarValues s) = s.
Proof.
  remember (length s) as n eqn:Hn.
  revert s Hn. induction n as [n IH] using lt_wf_ind. intros s -> Hwf.
  destruct s as [|c rest]; [by split; [constructor|]|].
  cbn [isWellFormed toScalarValues] in *.
  destruct (isHighSurrogate c) eqn:Hhigh.
  - destruct rest as [|d rest']; [discriminate|].
    apply andb_true_iff in Hwf as [Hlow Hwf]. rewrite Hlow.
    apply isHighSurrogate_spec in Hhigh. apply isLowSurrogate_spec in Hlow.
    destruct (utf16_pair c d Hhigh Hlow) as [Hscalar Hunits].
    destruct (IH (length rest')) with (s := rest') as [IH1 IH2];
      [cbn; lia|done|done|].
    split; [by constructor|].
    cbn [flat_map]. rewrite Hunits, IH2. done.
  - apply andb_true_iff in Hwf as [[Hlow Hunit]%andb_true_iff Hwf].
    apply negb_true_iff in Hlow. rewrite Hlow.
    apply N.ltb_lt in Hunit.
    destruct (IH (length rest)) with (s := rest) as [IH1 IH2];
      [cbn; lia|done|done|].
    assert (isScalar c) as Hscalar.
    { unfold isScalar. split; [lia|].
      destruct (decide (c < 0xD800)) as [|Hge]; [by left|right].
      destruct (decide (0xDFFF < c)) as [|Hle]; [done|].
      destruct (decide (c ≤ 0xDBFF)).
      - assert (isHighSurrogate c = true) by (apply isHighSurrogate_spec; lia). congruence.
      - assert (isLowSurrogate c = true) by (apply isLowSurrogate_spec; lia). congruence. }
    split; [by constructor|].
    cbn [flat_map]. rewrite IH2. unfold utf16_encode1.
    by rewrite (proj2 (N.ltb_lt _ _)) by lia.
Qed.

Lemma dropBOM_toScalarValues (s : list N) :
  head s ≠ Some 0xFEFF →
  dropBOM (toScalarValues s) = toScalarValues s.
Proof.
  destruct s as [|c rest]; [done|]. cbn [head]. intros Hc.
  cbn [toScalarValues].
  destruct (isHighSurrogate c) eqn:Hhigh.
  - apply isHighSurrogate_spec in Hhigh.
    destruct rest as [|d rest']; [done|].
    destruct (isLowSurrogate d) eqn:Hlow; [|done].
    unfold dropBOM. by rewrite (proj2 (N.eqb_neq _ _)) by lia.
  - destruct (isLowSurrogate c); [done|].
    unfold dropBOM. rewrite (proj2 (N.eqb_neq _ _)); [done|]. congruence.
Qed.

(** [textDecoder.decode(textEncoder.encode(s))] is [s] for a well-formed
    [s] that does not start with U+FEFF. *)
Lemma TextDecoder_TextEncoder (s : list N) :
  isWellFormed s = true → head s ≠ Some 0xFEFF →
  TextDecoder_decode (TextEncoder_encode s) = s.
Proof.
  intros Hwf Hbom. destruct (toScalarValues_wellFormed s Hwf) as [Hscalars Hunits].
  unfold TextDecoder_decode, TextEncoder_encode.
  rewrite map_to_N_toUint8 by (by apply utf8_encode_bytes).
  by rewrite utf8_run_encode, dropBOM_toScalarValues.
Qed.

(** ** The stand-in platform *)

Lemma testTag_length key iv : length (testTag key iv) = 16%nat.
Proof.
  unfold testTag. rewrite length_take, !length_app, length_replicate. lia.
Qed.

Lemma testDecrypt_accepts key iv cipher data :
  testDecrypt key iv cipher = Some data ↔ cipher = testEncrypt key iv data.
Proof.
  unfold testDecrypt, testEncrypt. split.
  - destruct (16 <=? length cipher)%nat eqn:Hlen; [|discriminate].
    case_bool_decide as Htag; [|discriminate].
    cbn. intros [= <-]. by rewrite <- Htag, take_drop.
  - intros ->. pose proof (testTag_length key iv) as Htag.
    rewrite length_app, Htag.
    replace (length data + 16 - 16)%nat with (length data) by lia.
    rewrite (proj2 (Nat.leb_le _ _)) by lia.
    rewrite drop_app_length, take_app_length.
    by rewrite bool_decide_eq_true_2.
Qed.

Lemma testDigest_length data : length (testDigest data) = 32%nat.
Proof.
  unfold testDigest. rewrite length_take, length_app, length_replicate. lia.
Qed.

Lemma testEncrypt_length key iv data :
  length (testEncrypt key iv data) = (length data + 16)%nat.
Proof. unfold testEncrypt. by rewrite length_app, testTag_length. Qed.

#[global] Instance testPlatform : Platform :=
  {| toLowerCase := testLowerCase; sha256 := testDigest;
     aesGcmEncrypt := testEncrypt; aesGcmDecrypt := testDecrypt;
     sha256_length := testDigest_length;
     aesGcmEncrypt_length := testEncrypt_length;
     aesGcmDecrypt_accepts := testDecrypt_accepts |}.

Section EnvelopeFacts.
Context `{Platform}.

(** ** Key derivation and framing *)

Lemma deriveKey_resolves addressKey :
  deriveKey addressKey =
    Resolved (sha256 (TextEncoder_encode (toLowerCase addressKey))).
Proof.
  unfold deriveKey, importKey. cbv zeta. rewrite sha256_length. reflexivity.
Qed.

Lemma fromBase64_toBase64 (bytes : list Byte.byte) :
  ∃ text, toBase64 bytes = Resolved text
    ∧ fromBase64 text = Resolved bytes
    ∧ Forall (λ c, isAsciiWhitespace c = false) text
    ∧ (bytes ≠ [] → text ≠ []).
Proof.
  unfold toBase64, fromBase64. cbv zeta.
  destruct (atob_btoa (map Byte.to_N bytes) (Forall_to_N_lt bytes))
    as (text & Hbtoa & Hatob).
  exists text. split; [exact Hbtoa|].
  split; [by rewrite Hatob; cbn; rewrite map_toUint8_to_N|].
  split.
  - unfold btoa in Hbtoa.
    destruct (forallb _ _); [|discriminate]. injection Hbtoa as <-.
    destruct (base64_body_values _ (Forall_to_N_lt bytes)) as [Hplain _].
    apply Forall_app. split.
    + eapply Forall_impl; [exact Hplain|]. by intros c [? _].
    + unfold base64_padding.
      destruct (length _ mod 3)%nat as [|[|[|?]]]; repeat constructor.
  - intros Hbytes ->. cbn in Hatob. injection Hatob as Hnil.
    destruct bytes; [done|discriminate].
Qed.


Lemma TextEncoder_encode_nonempty (s : list N) :
  s ≠ [] → TextEncoder_encode s ≠ [].
Proof.
  destruct s as [|c rest]; [done|]. intros _.
  unfold TextEncoder_encode. cbn [toScalarValues].
  assert (∀ cp tail, map toUint8 (flat_map utf8_encode1 (cp :: tail)) ≠ []) as Hne.
  { intros cp tail. cbn [flat_map]. unfold utf8_encode1.
    destruct (cp <=? 0x7F); [done|].
    destruct (cp <=? 0x7FF); [done|].
    by destruct (cp <=? 0xFFFF). }
  destruct (isHighSurrogate c).
  - destruct rest as [|d rest']; [apply Hne|].
    destruct (isLowSurrogate d); apply Hne.
  - destruct (isLowSurrogate c); apply Hne.
Qed.

(** What [decryptBodyWithKey] returns on what [encryptBodyWithKey] wrote,
    whatever the body. *)
Lemma decrypt_encrypt iv body addressKey :
  length iv = 12%nat → body ≠ [] →
  ∃ payload,
    encryptBodyWithKey iv body addressKey = Resolved payload
    ∧ payload ≠ []
    ∧ Forall (λ c, isAsciiWhitespace c = false) payload
    ∧ fromBase64 payload =
        Resolved (iv ++ aesGcmEncrypt (sha256 (TextEncoder_encode (toLowerCase addressKey)))
                          iv (TextEncoder_encode body))
    ∧ decryptBodyWithKey payload addressKey =
        Resolved (TextDecoder_decode (TextEncoder_encode body)).
Proof.
  intros Hiv Hbody.
  set (key := sha256 (TextEncoder_encode (toLowerCase addressKey))).
  set (cipher := aesGcmEncrypt key iv (TextEncoder_encode body)).
  destruct (fromBase64_toBase64 (iv ++ cipher)) as (payload & Hto & Hfrom & Hplain & Hne).
  assert (payload ≠ []) as Hpayload.
  { apply Hne. destruct iv; [discriminate|done]. }
  exists payload. unfold encryptBodyWithKey.
  destruct body as [|c rest]; [done|]. cbn [length Nat.eqb].
  rewrite deriveKey_resolves. cbn [andThen]. cbv zeta. fold key. fold cipher.
  split; [exact Hto|]. split; [exact Hpayload|]. split; [exact Hplain|].
  split; [exact Hfrom|].
  unfold decryptBodyWithKey. destruct payload as [|c0 payload']; [done|].
  rewrite Hfrom. cbn [andThen]. cbv zeta.
  rewrite deriveKey_resolves. cbn [andThen]. fold key.
  rewrite <- Hiv, take_app_length, drop_app_length.
  assert (aesGcmDecrypt key iv cipher = Some (TextEncoder_encode (c :: rest))) as ->
    by (by apply aesGcmDecrypt_accepts).
  reflexivity.
Qed.


End EnvelopeFacts.

Section EnvelopeTheorems.
Context `{Platform}.

(** C2 (amended): for every secret, every two 12-byte nonces and every
    plaintext that is a well-formed string not starting with U+FEFF (the
    empty string included), both encryptions decrypt back to the plaintext;
    the two payloads of a non-empty plaintext differ exactly when the nonces
    differ, and the payload of the empty plaintext is the empty string
    whatever the nonce. *)
Theorem envelope_round_trip (iv1 iv2 : list Byte.byte) (body addressKey : list N) :
  length iv1 = 12%nat → length iv2 = 12%nat →
  isWellFormed body = true → head body ≠ Some 0xFEFF →
  ∃ payload1 payload2,
    encryptBodyWithKey iv1 body addressKey = Resolved payload1
    ∧ encryptBodyWithKey iv2 body addressKey = Resolved payload2
    ∧ decryptBodyWithKey payload1 addressKey = Resolved body
    ∧ decryptBodyWithKey payload2 addressKey = Resolved body
    ∧ (body ≠ [] → (payload1 ≠ payload2 ↔ iv1 ≠ iv2))
    ∧ (body = [] → payload1 = [] ∧ payload2 = []).
Proof.
  intros Hiv1 Hiv2 Hwf Hbom.
  destruct (decide (body = [])) as [->|Hbody].
  { exists [], []. repeat split; try done. }
  destruct (decrypt_encrypt iv1 body addressKey Hiv1 Hbody)
    as (payload1 & Henc1 & _ & _ & Hraw1 & Hdec1).
  destruct (decrypt_encrypt iv2 body addressKey Hiv2 Hbody)
    as (payload2 & Henc2 & _ & _ & Hraw2 & Hdec2).
  rewrite TextDecoder_TextEncoder in Hdec1, Hdec2 by done.
  exists payload1, payload2.
  split; [done|]. split; [done|]. split; [done|]. split; [done|].
  split; [|done]. intros _. split.
  - intros Hdiff ->. apply Hdiff. congruence.
  - intros Hdiff ->. apply Hdiff.
    rewrite Hraw1 in Hraw2. injection Hraw2 as Hraw.
    apply (f_equal (take 12)) in Hraw.
    by rewrite <- Hiv1, take_app_length, Hiv1, <- Hiv2, take_app_length in Hraw.
Qed.


End EnvelopeTheorems.

(** ** The envelope at concrete inputs *)

Lemma envelope_round_trip_witness :
  ∃ payload1 payload2,
    encryptBodyWithKey nonceA (js "hello") (js "0xAbC") = Resolved payload1
    ∧ encryptBodyWithKey nonceB (js "hello") (js "0xAbC") = Resolved payload2
    ∧ decryptBodyWithKey payload1 (js "0xAbC") = Resolved (js "hello")
    ∧ decryptBodyWithKey payload2 (js "0xAbC") = Resolved (js "hello")
    ∧ (js "hello" ≠ [] → (payload1 ≠ payload2 ↔ nonceA ≠ nonceB))
    ∧ (js "hello" = [] → payload1 = [] ∧ payload2 = []).
Proof.
  apply (envelope_round_trip nonceA nonceB (js "hello") (js "0xAbC")).
  - reflexivity.
  - reflexivity.
  - reflexivity.
  - discriminate.
Defined.

(** Three plaintexts the envelope does not give back, on every platform:
    one that starts with U+FEFF comes back without it, a lone surrogate comes
    back as U+FFFD; and the empty plaintext has the same payload under any
    two nonces. *)
Lemma envelope_round_trip_fails :
  (∀ (P : Platform) iv addressKey, length iv = 12%nat →
     ∃ payload,
       encryptBodyWithKey iv [0xFEFF; 0x68; 0x69] addressKey = Resolved payload
       ∧ decryptBodyWithKey payload addressKey = Resolved [0x68; 0x69])
  ∧ (∀ (P : Platform) iv addressKey, length iv = 12%nat →
     ∃ payload,
       encryptBodyWithKey iv [0xD800] addressKey = Resolved payload
       ∧ decryptBodyWithKey payload addressKey = Resolved [0xFFFD])
  ∧ (∀ (P : Platform) addressKey,
       nonceA ≠ nonceB
       ∧ encryptBodyWithKey nonceA [] addressKey = encryptBodyWithKey nonceB [] addressKey).
Proof.
  split; [|split].
  - intros P iv addressKey Hiv.
    destruct (decrypt_encrypt iv [0xFEFF; 0x68; 0x69] addressKey Hiv)
      as (payload & Henc & _ & _ & _ & Hdec); [done|].
    by exists payload.
  - intros P iv addressKey Hiv.
    destruct (decrypt_encrypt iv [0xD800] addressKey Hiv)
      as (payload & Henc & _ & _ & _ & Hdec); [done|].
    by exists payload.
  - intros P addressKey. split; [discriminate|reflexivity].
Qed.



(** ** The codecs and the envelope on the stand-in platform *)

Example btoa_vectors :
  btoa (js "Man") = Resolved (js "TWFu")
  ∧ btoa (js "Ma") = Resolved (js "TWE=")
  ∧ btoa (js "M") = Resolved (js "TQ==")
  ∧ btoa [0x100] = Rejected InvalidCharacterError.
Proof. repeat split; reflexivity. Qed.

Example atob_vectors :
  atob (js "TWFu") = Resolved (js "Man")
  ∧ atob (js "TWE=") = Resolved (js "Ma")
  ∧ atob (js "TQ") = Resolved (js "M")
  ∧ atob (js " T Q = =") = Resolved (js "M")
  ∧ atob (js "TR==") = Resolved (js "M")
  ∧ atob (js "TQ=") = Rejected InvalidCharacterError
  ∧ atob (js "T") = Rejected InvalidCharacterError
  ∧ atob (js "T*Fu") = Rejected InvalidCharacterError.
Proof. repeat split; reflexivity. Qed.

Example TextEncoder_vectors :
  TextEncoder_encode (js "hi") = [Byte.x68; Byte.x69]
  ∧ TextEncoder_encode [0x20AC] = [Byte.xe2; Byte.x82; Byte.xac]
  ∧ TextEncoder_encode [0xD83D; 0xDE00] = [Byte.xf0; Byte.x9f; Byte.x98; Byte.x80]
  ∧ TextEncoder_encode [0xD800] = [Byte.xef; Byte.xbf; Byte.xbd]
  ∧ TextEncoder_encode [0xFEFF] = [Byte.xef; Byte.xbb; Byte.xbf].
Proof. repeat split; reflexivity. Qed.

Example TextDecoder_vectors :
  TextDecoder_decode [Byte.xe2; Byte.x82; Byte.xac] = [0x20AC]
  ∧ TextDecoder_decode [Byte.xf0; Byte.x9f; Byte.x98; Byte.x80] = [0xD83D; 0xDE00]
  ∧ TextDecoder_decode [Byte.xef; Byte.xbb; Byte.xbf; Byte.x41] = js "A"
  ∧ TextDecoder_decode [Byte.xe2; Byte.x82] = [0xFFFD]
  ∧ TextDecoder_decode [Byte.xe2; Byte.x41] = [0xFFFD; 0x41]
  ∧ TextDecoder_decode [Byte.xc0; Byte.x80] = [0xFFFD; 0xFFFD]
  ∧ TextDecoder_decode [Byte.xed; Byte.xa0; Byte.x80] = [0xFFFD; 0xFFFD; 0xFFFD].
Proof. repeat split; reflexivity. Qed.

Example envelope_on_test_platform :
  let payload := js "CgoKCgoKCgoKCgoKaGVsbG8weGFiYwAAAAAAAAAAAAAA" in
  encryptBodyWithKey nonceA (js "hello") (js "0xAbC") = Resolved payload
  ∧ decryptBodyWithKey payload (js "0xAbC") = Resolved (js "hello")
  ∧ decryptBodyWithKey payload (js "0xABC") = Resolved (js "hello")
  ∧ decryptBodyWithKey payload (js "0xABD") = Rejected OperationError
  ∧ decryptBodyWithKey (payload ++ js " ") (js "0xAbC") = Resolved (js "hello")
  ∧ decryptBodyWithKey (take 20 payload) (js "0xAbC") = Rejected OperationError
  ∧ decryptBodyWithKey (js "not base64!") (js "0xAbC") = Rejected InvalidCharacterError
  ∧ encryptBodyWithKey nonceA [] (js "0xAbC") = Resolved []
  ∧ decryptBodyWithKey [] (js "0xAbC") = Resolved [].
Proof. vm_compute. repeat split; reflexivity. Qed.

(** * More properties of the registry *)

Section VaultIndexFacts.
Context `{Engine}.

Lemma IndexInvariant_initial : IndexInvariant initial.
Proof.
  split; cbn; try done.
  - intros who documentId. unfold ownedOf. cbn. split.
    + intros Hin. by apply elem_of_nil in Hin.
    + by intros (doc & Hdoc & _).
  - intros who. unfold ownedOf. cbn. constructor.
Qed.

Lemma stored_below_next s documentId doc :
  Invariant s → _documents s !! documentId = Some doc → 1 ≤ documentId < _nextId s.
Proof.
  intros Hinv Hdoc. split.
  - destruct (decide (documentId = 0)) as [->|]; [|lia].
    rewrite (inv_zero _ Hinv) in Hdoc. discriminate.
  - destruct (decide (_nextId s ≤ documentId)) as [Hle|]; [|lia].
    rewrite (inv_fresh _ Hinv _ Hle) in Hdoc. discriminate.
Qed.

Lemma StronglySorted_snoc (l : list N) (x : N) :
  StronglySorted N.lt l → Forall (λ y, y < x) l → StronglySorted N.lt (l ++ [x]).
Proof.
  induction 1 as [|y l Hl IH Hy]; intros Hall; cbn.
  - repeat constructor.
  - apply Forall_cons in Hall as [Hyx Hall].
    constructor; [by apply IH|].
    apply Forall_app. split; [done|]. by repeat constructor.
Qed.

Lemma IndexInvariant_afterCreate msg nm body key proof handle s :
  Invariant s → IndexInvariant s → nm ≠ "" →
  IndexInvariant (afterCreate msg nm body key proof handle s).
Proof.
  intros Hinv Hidx Hname. split.
  - intros who documentId.
    rewrite (ownedOf_insert s (msg_sender msg) _ who) by reflexivity.
    cbn [_documents afterCreate].
    destruct (decide (_nextId s = documentId)) as [<-|Hne].
    + rewrite lookup_insert_eq. split.
      * intros Hin. case_decide as Hwho.
        -- eexists. split; [reflexivity|]. done.
        -- apply (idx_owned _ Hidx) in Hin as (doc & Hdoc & _).
           apply (stored_below_next _ _ _ Hinv) in Hdoc. lia.
      * intros (doc & [= <-] & Hwho). cbn in Hwho.
        rewrite decide_True by done. apply elem_of_app. right. by apply list_elem_of_singleton.
    + rewrite lookup_insert_ne by done. rewrite <- (idx_owned _ Hidx).
      case_decide as Hwho; [|done]. subst who.
      rewrite elem_of_app, list_elem_of_singleton. split; [|by left].
      intros [Hin|Heq]; [done|]. congruence.
  - intros who.
    rewrite (ownedOf_insert s (msg_sender msg) _ who) by reflexivity.
    case_decide as Hwho; [|apply (idx_owned_sorted _ Hidx)].
    apply StronglySorted_snoc; [apply (idx_owned_sorted _ Hidx)|].
    apply Forall_forall. intros y Hy.
    apply (idx_owned _ Hidx) in Hy as (doc & Hdoc & _).
    apply (stored_below_next _ _ _ Hinv) in Hdoc. lia.
  - intros who documentId Hflag.
    destruct (idx_shared _ Hidx who documentId Hflag) as (Hex & Hwho & Hperm).
    pose proof (exists_below_next _ _ Hinv Hex) as Hrange.
    assert (documentAt (afterCreate msg nm body key proof handle s) documentId
            = documentAt s documentId) as Hsame.
    { unfold documentAt. cbn. by rewrite lookup_insert_ne by lia. }
    unfold exists_. rewrite Hsame. split; [exact Hex|]. split; [done|].
    cbn. do 2 (apply elem_of_union; right). exact Hperm.
  - intros documentId doc. cbn.
    destruct (decide (_nextId s = documentId)) as [<-|Hne].
    + rewrite lookup_insert_eq. by intros [= <-].
    + rewrite lookup_insert_ne by done. apply (idx_named _ Hidx).
  - intros documentId doc. cbn.
    destruct (decide (_nextId s = documentId)) as [<-|Hne].
    + rewrite lookup_insert_eq. intros [= <-]. cbn. set_solver.
    + rewrite lookup_insert_ne by done. intros Hdoc.
      pose proof (idx_this _ Hidx _ _ Hdoc). set_solver.
Qed.

Lemma IndexInvariant_afterUpdate msg documentId body s :
  IndexInvariant s → exists_ s documentId = true →
  IndexInvariant (afterUpdate msg documentId body s).
Proof.
  intros Hidx Hex. pose proof (exists_lookup _ _ Hex) as Hdoc.
  assert (∀ id', owner (documentAt (afterUpdate msg documentId body s) id')
                   = owner (documentAt s id')
                 ∧ accessKey (documentAt (afterUpdate msg documentId body s) id')
                   = accessKey (documentAt s id')) as Hsame.
  { intros id'. destruct (decide (id' = documentId)) as [->|Hne].
    - by rewrite documentAt_afterUpdate.
    - unfold documentAt. cbn. by rewrite lookup_insert_ne. }
  split.
  - intros who id'. change (ownedOf (afterUpdate msg documentId body s) who)
      with (ownedOf s who). rewrite (idx_owned _ Hidx). cbn.
    destruct (decide (documentId = id')) as [<-|Hne].
    + rewrite lookup_insert_eq, Hdoc. split.
      * intros (doc & [= <-] & Hwho). eexists. split; [reflexivity|]. done.
      * intros (doc & [= <-] & Hwho). eexists. split; [reflexivity|]. done.
    + by rewrite lookup_insert_ne.
  - apply (idx_owned_sorted _ Hidx).
  - intros who id' Hflag.
    destruct (idx_shared _ Hidx who id' Hflag) as (Hex' & Hwho & Hperm).
    destruct (Hsame id') as [Ho Hk].
    unfold exists_. rewrite Ho, Hk. done.
  - intros id' doc. cbn. destruct (decide (documentId = id')) as [<-|Hne].
    + rewrite lookup_insert_eq. intros [= <-]. cbn. apply (idx_named _ Hidx _ _ Hdoc).
    + rewrite lookup_insert_ne by done. apply (idx_named _ Hidx).
  - intros id' doc. cbn. destruct (decide (documentId = id')) as [<-|Hne].
    + rewrite lookup_insert_eq. intros [= <-]. cbn. apply (idx_this _ Hidx _ _ Hdoc).
    + rewrite lookup_insert_ne by done. apply (idx_this _ Hidx).
Qed.

Lemma IndexInvariant_afterGrant documentId grantee s :
  IndexInvariant s → exists_ s documentId = true → grantee ≠ address0 →
  IndexInvariant (afterGrant documentId grantee s).
Proof.
  intros Hidx Hex Hg. split.
  - apply (idx_owned _ Hidx).
  - apply (idx_owned_sorted _ Hidx).
  - intros who id'. rewrite isSharedWith_afterGrant.
    change (exists_ (afterGrant documentId grantee s) id') with (exists_ s id').
    change (documentAt (afterGrant documentId grantee s) id') with (documentAt s id').
    cbn [acl afterGrant].
    case_decide as Hd.
    + destruct Hd as [-> ->]. intros _. split; [done|]. split; [done|]. set_solver.
    + intros Hflag. destruct (idx_shared _ Hidx who id' Hflag) as (? & ? & ?).
      split; [done|]. split; [done|]. set_solver.
  - apply (idx_named _ Hidx).
  - intros id' doc Hdoc. cbn. pose proof (idx_this _ Hidx _ _ Hdoc). set_solver.
Qed.

Lemma IndexInvariant_transact msg c s :
  Invariant s → IndexInvariant s → IndexInvariant (transact msg c s).1.
Proof.
  intros Hinv Hidx.
  destruct c as [nm body key proof|documentId body|documentId grantee]; unfold transact.
  - rewrite createDocument_run.
    destruct (0 <? N.of_nat (String.length nm)) eqn:Hname; [|done].
    destruct (verifyInput _ _ _); [|done].
    destruct (_nextId s =? MAX_UINT256); [done|]. cbn.
    apply IndexInvariant_afterCreate; [done..|].
    intros ->. cbn in Hname. discriminate.
  - rewrite updateDocumentBody_run.
    destruct (exists_ s documentId) eqn:Hex; [|done].
    destruct (permitted _ _ _); [|done]. cbn.
    by apply IndexInvariant_afterUpdate.
  - rewrite grantAccess_run.
    destruct (grantee =? address0) eqn:Hg; [done|]. cbn [negb].
    destruct (exists_ s documentId) eqn:Hex; [|done].
    destruct (permitted _ _ _); [|done]. cbn.
    apply IndexInvariant_afterGrant; [done..|]. by apply N.eqb_neq.
Qed.

Lemma IndexInvariant_execute txs s :
  Invariant s → IndexInvariant s → IndexInvariant (execute txs s).1.
Proof.
  revert s. induction txs as [|[msg c] rest IH]; intros s Hinv Hidx; [done|].
  rewrite execute_cons. cbn [fst].
  apply IH; [by apply Invariant_transact|by apply IndexInvariant_transact].
Qed.

Lemma reachable_IndexInvariant s : reachable s → IndexInvariant s.
Proof.
  intros [txs <-]. apply IndexInvariant_execute;
    [apply Invariant_initial|apply IndexInvariant_initial].
Qed.

End VaultIndexFacts.

Section VaultMore.
Context `{Engine}.

Lemma getDocument_returns documentId s doc :
  view (getDocument documentId) s = Ok doc →
  exists_ s documentId = true ∧ doc = documentAt s documentId.
Proof.
  unfold view, getDocument, _getDocument, tx_bind, read, require, exists_.
  destruct (negb _); cbn; [|discriminate]. by intros [= <-].
Qed.

Lemma getDocument_missing documentId s :
  exists_ s documentId = false →
  view (getDocument documentId) s = Reverted (Error "Document not found").
Proof.
  unfold view, getDocument, _getDocument, tx_bind, read, require, exists_.
  by intros ->.
Qed.

Lemma totalDocuments_view s :
  1 ≤ _nextId s → view totalDocuments s = Ok (_nextId s - 1).
Proof.
  intros Hnext. unfold view, totalDocuments, tx_bind, read.
  by rewrite (proj2 (N.ltb_ge _ _)) by lia.
Qed.

(** ** Creation *)

(** X1: a [createDocument] with a non-empty name, an accepted proof and a
    counter below its maximum succeeds: it returns [totalDocuments() + 1],
    [totalDocuments()] grows by one, [getDocument] of the new id returns the
    caller as owner, the given name and body, the imported key and the block's
    timestamp and number, the id is appended at the end of the caller's owned
    list where it was not before, one [DocumentCreated] event is logged, and
    the caller holds permission on the key. *)
Theorem createDocument_success msg nm body key proof handle s :
  reachable s →
  nm ≠ "" →
  msg_sender msg ≠ address0 →
  verifyInput key proof (msg_sender msg) = Some handle →
  _nextId s ≠ MAX_UINT256 →
  ∃ s' total owned,
    view totalDocuments s = Ok total
    ∧ view (getOwnedDocumentIds (msg_sender msg)) s = Ok owned
    ∧ transact msg (CreateDocument nm body key proof) s = (s', Created (total + 1))
    ∧ view totalDocuments s' = Ok (total + 1)
    ∧ view (getDocument (total + 1)) s' =
        Ok {| owner := msg_sender msg; name := nm; encryptedBody := body;
              accessKey := handle; createdAt := block_timestamp msg;
              updatedAt := block_timestamp msg; lastEditorBlock := block_number msg |}
    ∧ view (getOwnedDocumentIds (msg_sender msg)) s' = Ok (owned ++ [total + 1])
    ∧ ((total + 1) ∉ owned)
    ∧ logs s' = logs s ++ [DocumentCreated (total + 1) (msg_sender msg) nm]
    ∧ view (FHE_isSenderAllowed msg handle) s' = Ok true.
Proof.
  intros Hreach Hname Hsender Hproof Hmax.
  pose proof (reachable_Invariant _ Hreach) as Hinv.
  pose proof (reachable_IndexInvariant _ Hreach) as Hidx.
  pose proof (inv_next _ Hinv) as Hnext.
  assert (_nextId s - 1 + 1 = _nextId s) as Hid by lia.
  set (s' := afterCreate msg nm body key proof handle s).
  exists s', (_nextId s - 1), (ownedOf s (msg_sender msg)).
  split; [by apply totalDocuments_view|]. split; [reflexivity|].
  rewrite Hid.
  split.
  { unfold transact. rewrite createDocument_run, Hproof.
    apply N.eqb_neq in Hmax. rewrite Hmax.
    destruct nm; [done|]. reflexivity. }
  split.
  { rewrite totalDocuments_view by (subst s'; cbn; lia). subst s'. cbn. f_equal. lia. }
  assert (documentAt s' (_nextId s) =
    {| owner := msg_sender msg; name := nm; encryptedBody := body;
       accessKey := handle; createdAt := block_timestamp msg;
       updatedAt := block_timestamp msg; lastEditorBlock := block_number msg |}) as Hdoc.
  { unfold documentAt. subst s'. cbn. by rewrite lookup_insert_eq. }
  split.
  { rewrite getDocument_view; [by rewrite Hdoc|].
    unfold exists_. rewrite Hdoc. cbn. apply negb_true_iff. by apply N.eqb_neq. }
  split.
  { unfold view, getOwnedDocumentIds, read. f_equal.
    rewrite (ownedOf_insert s (msg_sender msg) _ (msg_sender msg)) by reflexivity.
    by rewrite decide_True. }
  split.
  { intros Hin. apply (idx_owned _ Hidx) in Hin as (doc & Hstored & _).
    apply (stored_below_next _ _ _ Hinv) in Hstored. lia. }
  split; [reflexivity|].
  rewrite isSenderAllowed_view. f_equal. unfold permitted.
  apply bool_decide_eq_true. subst s'. cbn. apply elem_of_union. left.
  by apply elem_of_singleton.
Qed.

(** X2: a [createDocument] whose proof the engine rejects reverts, and one
    made when the counter is at its maximum reverts with the overflow panic;
    the name is checked before either.  A reverted attempt uses up no id: the
    next successful creation gets the id the failed one would have got. *)
Theorem createDocument_rejections msg nm body key proof s :
  (nm ≠ "" → verifyInput key proof (msg_sender msg) = None →
     transact msg (CreateDocument nm body key proof) s = (s, Failed InvalidInputProof))
  ∧ (nm ≠ "" → is_Some (verifyInput key proof (msg_sender msg)) →
     _nextId s = MAX_UINT256 →
     transact msg (CreateDocument nm body key proof) s = (s, Failed (Panic 0x11)))
  ∧ (∀ r msg' nm' body' key' proof' s' documentId,
       transact msg (CreateDocument nm body key proof) s = (s', Failed r) →
       (transact msg' (CreateDocument nm' body' key' proof') s').2 = Created documentId →
       (transact msg' (CreateDocument nm' body' key' proof') s).2 = Created documentId).
Proof.
  split; [|split].
  - intros Hname Hproof. unfold transact. rewrite createDocument_run, Hproof.
    destruct nm; [done|]. reflexivity.
  - intros Hname [handle Hproof] Hmax. unfold transact.
    rewrite createDocument_run, Hproof, Hmax.
    destruct nm; [done|]. reflexivity.
  - intros r msg' nm' body' key' proof' s' documentId Hfail.
    assert (s' = s) as ->; [|done].
    unfold transact in Hfail.
    destruct (createDocument msg nm body key proof s) as [[? ?]|]; by injection Hfail.
Qed.

(** ** Which documents exist *)

Lemma dense_transact msg c s :
  Invariant s → msg_sender msg ≠ address0 →
  (∀ documentId, 1 ≤ documentId < _nextId s → exists_ s documentId = true) →
  ∀ documentId, 1 ≤ documentId < _nextId (transact msg c s).1 →
    exists_ (transact msg c s).1 documentId = true.
Proof.
  intros Hinv Hsender Hdense documentId.
  destruct c as [nm body key proof|id' body|id' grantee]; unfold transact.
  - rewrite createDocument_run.
    destruct (0 <? _); [|apply Hdense].
    destruct (verifyInput _ _ _); [|apply Hdense].
    destruct (_nextId s =? MAX_UINT256); [apply Hdense|]. cbn.
    intros Hrange. unfold exists_, documentAt. cbn.
    destruct (decide (_nextId s = documentId)) as [<-|Hne].
    + rewrite lookup_insert_eq. cbn. apply negb_true_iff. by apply N.eqb_neq.
    + rewrite lookup_insert_ne by done. apply Hdense. lia.
  - rewrite updateDocumentBody_run.
    destruct (exists_ s id') eqn:Hex; [|apply Hdense].
    destruct (permitted _ _ _); [|apply Hdense]. cbn.
    intros Hrange. specialize (Hdense _ Hrange).
    unfold exists_ in *. destruct (decide (documentId = id')) as [->|Hne].
    + by rewrite documentAt_afterUpdate.
    + unfold documentAt. cbn. by rewrite lookup_insert_ne.
  - rewrite grantAccess_run.
    destruct (negb _); [|apply Hdense].
    destruct (exists_ s id'); [|apply Hdense].
    destruct (permitted _ _ _); apply Hdense.
Qed.

Lemma dense_execute txs s :
  Invariant s →
  Forall (λ tx : Msg * Call, msg_sender tx.1 ≠ address0) txs →
  (∀ documentId, 1 ≤ documentId < _nextId s → exists_ s documentId = true) →
  ∀ documentId, 1 ≤ documentId < _nextId (execute txs s).1 →
    exists_ (execute txs s).1 documentId = true.
Proof.
  intros Hinv Hsenders. revert s Hinv.
  induction Hsenders as [|[msg c] rest Hsender _ IH]; intros s Hinv Hdense; [done|].
  rewrite execute_cons. cbn [fst].
  apply IH; [by apply Invariant_transact|]. by apply dense_transact.
Qed.

(** X3: when no transaction comes from the zero address, the documents that
    exist are exactly those with an id from 1 to [totalDocuments()]:
    [documentExists] is true and [getDocument] returns a record for these
    ids, and for every other id [documentExists] is false and [getDocument]
    reverts with "Document not found". *)
Theorem documents_are_1_to_total (txs : list (Msg * Call)) :
  Forall (λ tx : Msg * Call, msg_sender tx.1 ≠ address0) txs →
  let s := (execute txs initial).1 in
  ∃ total,
    view totalDocuments s = Ok total
    ∧ ∀ documentId,
        view (documentExists documentId) s = Ok (bool_decide (1 ≤ documentId ≤ total))
        ∧ (1 ≤ documentId ≤ total → ∃ doc, view (getDocument documentId) s = Ok doc)
        ∧ (¬ (1 ≤ documentId ≤ total) →
             view (getDocument documentId) s = Reverted (Error "Document not found")).
Proof.
  intros Hsenders s.
  assert (Invariant s) as Hinv by apply Invariant_execute, Invariant_initial.
  pose proof (inv_next _ Hinv) as Hnext.
  assert (∀ documentId, 1 ≤ documentId < _nextId s → exists_ s documentId = true)
    as Hdense.
  { apply dense_execute; [apply Invariant_initial|done|]. cbn. lia. }
  exists (_nextId s - 1). split; [by apply totalDocuments_view|].
  intros documentId.
  destruct (decide (1 ≤ documentId ≤ _nextId s - 1)) as [Hin|Hout].
  - assert (exists_ s documentId = true) as Hex by (apply Hdense; lia).
    split; [by rewrite documentExists_view, Hex, bool_decide_eq_true_2|].
    split; [|done]. intros _. exists (documentAt s documentId). by apply getDocument_view.
  - assert (exists_ s documentId = false) as Hex.
    { destruct (exists_ s documentId) eqn:Hex; [|done].
      apply (exists_below_next _ _ Hinv) in Hex. lia. }
    split; [by rewrite documentExists_view, Hex, bool_decide_eq_false_2|].
    split; [done|]. intros _. by apply getDocument_missing.
Qed.

End VaultMore.

Section VaultIndexTheorems.
Context `{Engine}.

(** ** The indexes *)

(** X4: in every reachable state [getOwnedDocumentIds(who)] is strictly
    increasing (so without repetition) and lists exactly the stored documents
    whose owner is [who]; for a principal other than the zero address these
    are the ids for which [getDocument] returns a record owned by it. *)
Theorem owned_index_matches_records s who :
  reachable s →
  ∃ owned,
    view (getOwnedDocumentIds who) s = Ok owned
    ∧ StronglySorted N.lt owned
    ∧ (∀ documentId,
         documentId ∈ owned ↔
           ∃ doc, _documents s !! documentId = Some doc ∧ owner doc = who)
    ∧ (who ≠ address0 →
       ∀ documentId,
         documentId ∈ owned ↔
           ∃ doc, view (getDocument documentId) s = Ok doc ∧ owner doc = who).
Proof.
  intros Hreach. pose proof (reachable_IndexInvariant _ Hreach) as Hidx.
  exists (ownedOf s who).
  split; [reflexivity|]. split; [apply (idx_owned_sorted _ Hidx)|].
  split; [apply (idx_owned _ Hidx)|].
  intros Hwho documentId. rewrite (idx_owned _ Hidx). split.
  - intros (doc & Hdoc & Howner). exists doc. split; [|done].
    assert (documentAt s documentId = doc) as Hat by (unfold documentAt; by rewrite Hdoc).
    rewrite getDocument_view; [by rewrite Hat|].
    unfold exists_. rewrite Hat, Howner. apply negb_true_iff. by apply N.eqb_neq.
  - intros (doc & Hget & Howner).
    apply getDocument_returns in Hget as [Hex ->].
    exists (documentAt s documentId). split; [by apply exists_lookup|done].
Qed.

Lemma count_occ_NoDup (l : list N) :
  (∀ x, count_occ N.eq_dec l x ≤ 1)%nat → NoDup l.
Proof.
  intros Hcount. apply NoDup_ListNoDup, (NoDup_count_occ N.eq_dec). exact Hcount.
Qed.

(** X5: in every reachable state [getSharedDocumentIds(who)] has no
    repetition, and each id in it names an existing document on whose key
    [who] holds permission: [who], which is not the zero address, can update
    its body and grant access to it. *)
Theorem shared_index_is_sound s who :
  reachable s →
  ∃ shared,
    view (getSharedDocumentIds who) s = Ok shared
    ∧ NoDup shared
    ∧ ∀ documentId, documentId ∈ shared →
        who ≠ address0
        ∧ view (documentExists documentId) s = Ok true
        ∧ ∀ msg, msg_sender msg = who →
            (∀ body, (transact msg (UpdateDocumentBody documentId body) s).2 = Succeeded)
            ∧ (∀ grantee, grantee ≠ address0 →
                 (transact msg (GrantAccess documentId grantee) s).2 = Succeeded).
Proof.
  intros Hreach.
  pose proof (reachable_Invariant _ Hreach) as Hinv.
  pose proof (reachable_IndexInvariant _ Hreach) as Hidx.
  exists (sharedOf s who). split; [reflexivity|].
  split.
  { apply count_occ_NoDup. intros x. rewrite (inv_shared _ Hinv).
    destruct (isSharedWith s x who); lia. }
  intros documentId Hin.
  assert (isSharedWith s documentId who = true) as Hflag.
  { pose proof (inv_shared _ Hinv documentId who) as Hcount.
    destruct (isSharedWith s documentId who); [done|].
    apply list_elem_of_In, (count_occ_In N.eq_dec) in Hin. lia. }
  destruct (idx_shared _ Hidx who documentId Hflag) as (Hex & Hwho & Hperm).
  split; [done|]. split; [by rewrite documentExists_view, Hex|].
  intros msg Hsender.
  assert (permitted s (accessKey (documentAt s documentId)) (msg_sender msg) = true)
    as Hpermitted.
  { unfold permitted. rewrite Hsender. by apply bool_decide_eq_true. }
  split.
  - intros body. by rewrite update_succeeds.
  - intros grantee Hg. by rewrite grant_succeeds.
Qed.

(** X6: the owner never loses access: in every reachable state the owner of
    an existing document holds permission on its key, so the owner's
    [updateDocumentBody] succeeds and so does the owner's [grantAccess] to any
    grantee other than the zero address. *)
Theorem owner_keeps_access s documentId msg :
  reachable s →
  view (documentExists documentId) s = Ok true →
  msg_sender msg = owner (documentAt s documentId) →
  view (FHE_isSenderAllowed msg (accessKey (documentAt s documentId))) s = Ok true
  ∧ (∀ body, (transact msg (UpdateDocumentBody documentId body) s).2 = Succeeded)
  ∧ (∀ grantee, grantee ≠ address0 →
       (transact msg (GrantAccess documentId grantee) s).2 = Succeeded).
Proof.
  intros Hreach [= Hex] Hsender.
  pose proof (reachable_Invariant _ Hreach) as Hinv.
  assert (permitted s (accessKey (documentAt s documentId)) (msg_sender msg) = true)
    as Hpermitted.
  { unfold permitted. rewrite Hsender. apply bool_decide_eq_true.
    apply (inv_owner_permitted _ Hinv documentId). by apply exists_lookup. }
  split; [by rewrite isSenderAllowed_view, Hpermitted|].
  split.
  - intros body. by rewrite update_succeeds.
  - intros grantee Hg. by rewrite grant_succeeds.
Qed.

(** X9: in every reachable state a record that [getDocument] returns has a
    non-empty name and an owner that is not the zero address, its id lies
    between 1 and [totalDocuments()], and the id is in its owner's
    [getOwnedDocumentIds]. *)
Theorem getDocument_record_is_well_formed s documentId doc :
  reachable s →
  view (getDocument documentId) s = Ok doc →
  name doc ≠ ""
  ∧ owner doc ≠ address0
  ∧ (∃ total, view totalDocuments s = Ok total ∧ 1 ≤ documentId ≤ total)
  ∧ (∃ owned, view (getOwnedDocumentIds (owner doc)) s = Ok owned ∧ documentId ∈ owned).
Proof.
  intros Hreach Hget.
  pose proof (reachable_Invariant _ Hreach) as Hinv.
  pose proof (reachable_IndexInvariant _ Hreach) as Hidx.
  apply getDocument_returns in Hget as [Hex ->].
  pose proof (exists_lookup _ _ Hex) as Hdoc.
  split; [apply (idx_named _ Hidx _ _ Hdoc)|].
  split.
  { unfold exists_ in Hex. apply negb_true_iff in Hex. by apply N.eqb_neq. }
  split.
  { exists (_nextId s - 1). pose proof (exists_below_next _ _ Hinv Hex).
    split; [apply totalDocuments_view; lia|lia]. }
  exists (ownedOf s (owner (documentAt s documentId))).
  split; [reflexivity|]. apply (inv_owned _ Hinv _ _ Hdoc).
Qed.

(** ** Who can change what *)

(** X7: the body of an existing document changes only through
    [updateDocumentBody] on that document by a caller that holds permission
    on its key: if a transaction leaves a different body, it was such a call,
    it succeeded, and the body is the one the call wrote. *)
Theorem body_changes_only_by_permitted_update s msg c documentId :
  reachable s →
  view (documentExists documentId) s = Ok true →
  encryptedBody (documentAt (transact msg c s).1 documentId)
    ≠ encryptedBody (documentAt s documentId) →
  ∃ newEncryptedBody,
    c = UpdateDocumentBody documentId newEncryptedBody
    ∧ view (FHE_isSenderAllowed msg (accessKey (documentAt s documentId))) s = Ok true
    ∧ (transact msg c s).2 = Succeeded
    ∧ encryptedBody (documentAt (transact msg c s).1 documentId) = newEncryptedBody.
Proof.
  intros Hreach [= Hex] Hchanged. change (exists_ s documentId = true) in Hex.
  pose proof (reachable_Invariant _ Hreach) as Hinv.
  destruct c as [nm body key proof|id' body|id' grantee].
  - rewrite transact_other_document in Hchanged; done.
  - destruct (decide (id' = documentId)) as [->|Hne].
    + exists body. split; [done|]. revert Hchanged.
      unfold transact. rewrite updateDocumentBody_run, Hex, isSenderAllowed_view.
      destruct (permitted _ _ _); [|done]. cbn. intros _.
      by rewrite documentAt_afterUpdate.
    + rewrite transact_other_document in Hchanged; [done..|]. congruence.
  - rewrite transact_other_document in Hchanged; done.
Qed.

(** X8: permission on a key is only handed out at creation or by a holder: if
    after a transaction [account] holds permission on [handle] that it did
    not hold before, then either the transaction was a successful
    [createDocument] that imported [handle], and [account] is the creator or
    the vault, or it was a successful [grantAccess] to [account] on a
    document with that key, made by a caller who held permission on it. *)
Theorem permission_comes_from_a_holder s msg c handle account :
  (handle, account) ∈ acl (transact msg c s).1 →
  (handle, account) ∉ acl s →
  match c with
  | CreateDocument nm body key proof =>
      verifyInput key proof (msg_sender msg) = Some handle
      ∧ (account = msg_sender msg ∨ account = this)
      ∧ ∃ documentId, (transact msg c s).2 = Created documentId
  | UpdateDocumentBody _ _ => False
  | GrantAccess documentId grantee =>
      account = grantee
      ∧ handle = accessKey (documentAt s documentId)
      ∧ view (documentExists documentId) s = Ok true
      ∧ view (FHE_isSenderAllowed msg handle) s = Ok true
      ∧ (transact msg c s).2 = Succeeded
  end.
Proof.
  destruct c as [nm body key proof|id' body|id' grantee]; unfold transact.
  - rewrite createDocument_run.
    destruct (0 <? _); [|done].
    destruct (verifyInput _ _ _) as [h|]; [|done].
    destruct (_nextId s =? MAX_UINT256); [done|]. cbn.
    rewrite !elem_of_union, !elem_of_singleton.
    intros [[= -> ->]|[[= -> ->]|Hold]] Hnew; [| |done].
    + split; [done|]. split; [by left|]. by eexists.
    + split; [done|]. split; [by right|]. by eexists.
  - rewrite updateDocumentBody_run.
    destruct (exists_ s id'); [|done].
    by destruct (permitted _ _ _).
  - rewrite grantAccess_run, documentExists_view, isSenderAllowed_view.
    destruct (negb _); [|done].
    destruct (exists_ s id'); [|done].
    destruct (permitted _ _ _) eqn:Hperm; [|done]. cbn.
    rewrite elem_of_union, elem_of_singleton.
    intros [[= -> ->]|Hold] Hnew; [|done].
    by rewrite Hperm.
Qed.

End VaultIndexTheorems.

Section VaultLogs.
Context `{Engine}.

(** ** The event log *)

Lemma transact_logs msg c s :
  logs (transact msg c s).1 = logs s ++ emitted msg c (transact msg c s).2
  ∧ length (emitted msg c (transact msg c s).2) = countSucceeded [(transact msg c s).2]
  ∧ createdEventIds (emitted msg c (transact msg c s).2) = createdIds [(transact msg c s).2].
Proof.
  destruct c as [nm body key proof|id' body|id' grantee]; unfold transact.
  - rewrite createDocument_run.
    destruct (0 <? _); [|by rewrite app_nil_r].
    destruct (verifyInput _ _ _); [|by rewrite app_nil_r].
    destruct (_nextId s =? MAX_UINT256); [by rewrite app_nil_r|]. done.
  - rewrite updateDocumentBody_run.
    destruct (exists_ s id'); [|by rewrite app_nil_r].
    destruct (permitted _ _ _); [done|by rewrite app_nil_r].
  - rewrite grantAccess_run.
    destruct (negb _); [|by rewrite app_nil_r].
    destruct (exists_ s id'); [|by rewrite app_nil_r].
    destruct (permitted _ _ _); [done|by rewrite app_nil_r].
Qed.

Lemma createdEventIds_app l1 l2 :
  createdEventIds (l1 ++ l2) = createdEventIds l1 ++ createdEventIds l2.
Proof.
  induction l1 as [|[id ? ?|? ? ?|? ?] rest IH]; cbn; [done| |done..]. by rewrite IH.
Qed.

Lemma execute_logs txs s :
  logs (execute txs s).1 = logs s ++ emittedBy txs (execute txs s).2
  ∧ length (emittedBy txs (execute txs s).2) = countSucceeded (execute txs s).2
  ∧ createdEventIds (emittedBy txs (execute txs s).2) = createdIds (execute txs s).2.
Proof.
  revert s. induction txs as [|[msg c] rest IH]; intros s.
  - cbn. by rewrite app_nil_r.
  - rewrite execute_cons. cbn [fst snd emittedBy].
    destruct (IH (transact msg c s).1) as (IHlogs & IHlen & IHids).
    destruct (transact_logs msg c s) as (Hlogs & Hlen & Hids).
    rewrite IHlogs, Hlogs, <- app_assoc.
    split; [done|].
    rewrite length_app, createdEventIds_app, IHlen, IHids, Hlen, Hids.
    by destruct (transact msg c s).2.
Qed.

(** X10: the event log mirrors the receipts.  From deployment on, the log
    holds exactly one event for each transaction that did not revert, in
    order, and none for a reverted one; the ids of its [DocumentCreated]
    events are the ids [createDocument] returned, in order; and later
    transactions only append to it. *)
Theorem events_mirror_receipts (txs more : list (Msg * Call)) :
  let s := (execute txs initial).1 in
  let rs := (execute txs initial).2 in
  logs s = emittedBy txs rs
  ∧ length (logs s) = countSucceeded rs
  ∧ createdEventIds (logs s) = createdIds rs
  ∧ logs (execute more s).1 = logs s ++ emittedBy more (execute more s).2.
Proof.
  intros s rs. destruct (execute_logs txs initial) as (Hlogs & Hlen & Hids).
  cbn [logs initial app] in Hlogs. fold s rs in Hlogs, Hlen, Hids.
  rewrite Hlogs at 1 2 3. split; [done|]. split; [done|]. split; [done|].
  apply execute_logs.
Qed.

(** ** Timestamps *)

Lemma timestamps_transact msg c s since :
  since ≤ block_timestamp msg →
  (∀ documentId doc, _documents s !! documentId = Some doc →
     createdAt doc ≤ updatedAt doc ∧ updatedAt doc ≤ since) →
  ∀ documentId doc, _documents (transact msg c s).1 !! documentId = Some doc →
    createdAt doc ≤ updatedAt doc ∧ updatedAt doc ≤ block_timestamp msg.
Proof.
  intros Hsince Hold.
  assert (∀ documentId doc, _documents s !! documentId = Some doc →
            createdAt doc ≤ updatedAt doc ∧ updatedAt doc ≤ block_timestamp msg) as Hold'.
  { intros documentId doc Hdoc. destruct (Hold _ _ Hdoc). lia. }
  destruct c as [nm body key proof|id' body|id' grantee]; unfold transact.
  - rewrite createDocument_run.
    destruct (0 <? _); [|done].
    destruct (verifyInput _ _ _); [|done].
    destruct (_nextId s =? MAX_UINT256); [done|]. cbn.
    intros documentId doc. destruct (decide (_nextId s = documentId)) as [<-|Hne].
    + rewrite lookup_insert_eq. intros [= <-]. cbn. lia.
    + rewrite lookup_insert_ne by done. apply Hold'.
  - rewrite updateDocumentBody_run.
    destruct (exists_ s id') eqn:Hex; [|done].
    destruct (permitted _ _ _); [|done]. cbn.
    intros documentId doc. destruct (decide (id' = documentId)) as [<-|Hne].
    + rewrite lookup_insert_eq. intros [= <-]. cbn.
      destruct (Hold _ _ (exists_lookup _ _ Hex)). lia.
    + rewrite lookup_insert_ne by done. apply Hold'.
  - rewrite grantAccess_run.
    destruct (negb _); [|done].
    destruct (exists_ s id'); [|done].
    by destruct (permitted _ _ _).
Qed.

Lemma timestamps_execute txs s since :
  timestampsFrom since txs →
  (∀ documentId doc, _documents s !! documentId = Some doc →
     createdAt doc ≤ updatedAt doc ∧ updatedAt doc ≤ since) →
  ∀ documentId doc, _documents (execute txs s).1 !! documentId = Some doc →
    createdAt doc ≤ updatedAt doc ∧ updatedAt doc ≤ latestTimestamp since txs.
Proof.
  revert s since. induction txs as [|[msg c] rest IH]; intros s since Hts Hold; [done|].
  destruct Hts as [Hsince Hrest].
  rewrite execute_cons. cbn [fst latestTimestamp].
  apply IH; [done|]. by apply (timestamps_transact msg c s since).
Qed.

(** X11: when block timestamps never go back along the transactions since
    deployment, every record [getDocument] returns has
    [createdAt <= updatedAt], and [updatedAt] is at most the timestamp of the
    latest block. *)
Theorem createdAt_before_updatedAt (txs : list (Msg * Call)) documentId doc :
  timestampsFrom 0 txs →
  view (getDocument documentId) (execute txs initial).1 = Ok doc →
  createdAt doc ≤ updatedAt doc ∧ updatedAt doc ≤ latestTimestamp 0 txs.
Proof.
  intros Hts Hget. apply getDocument_returns in Hget as [Hex ->].
  apply (timestamps_execute txs initial 0 Hts) with (documentId := documentId).
  - intros id' doc' Hdoc. cbn in Hdoc. by rewrite lookup_empty in Hdoc.
  - by apply exists_lookup.
Qed.

End VaultLogs.

(** * More properties of the envelope *)


Lemma base64_length (l : list N) :
  length (base64_body l ++ base64_padding l) = (4 * ((length l + 2) / 3))%nat.
Proof.
  induction l as [|a|a b|a b c rest IH] using list_ind3; [done..|].
  unfold base64_padding. rewrite base64_padding_step. fold (base64_padding rest).
  cbn [base64_body]. cbv zeta. cbn [app length]. rewrite IH.
  replace (S (S (S (length rest))) + 2)%nat with (length rest + 2 + 1 * 3)%nat by lia.
  rewrite Nat.div_add by done. lia.
Qed.

Lemma base64_values_alphabet (data values : list N) :
  base64_values data = Some values → Forall (λ c, is_Some (base64_value c)) data.
Proof.
  revert values. induction data as [|c rest IH]; intros values; [constructor|].
  cbn [base64_values]. destruct (base64_value c) as [v|] eqn:Hc; [|discriminate].
  destruct (base64_values rest) as [vs|]; [|discriminate].
  intros _. constructor; [by eexists|]. by eapply IH.
Qed.

Lemma base64_values_foreign (data : list N) c :
  c ∈ data → base64_value c = None → base64_values data = None.
Proof.
  induction 1 as [c rest|c d rest Hin IH]; intros Hc; cbn [base64_values].
  - by rewrite Hc.
  - rewrite IH by done. by destruct (base64_value d).
Qed.

Lemma elem_of_rev_iff (l : list N) c : c ∈ rev l ↔ c ∈ l.
Proof. rewrite !list_elem_of_In. symmetry. apply in_rev. Qed.

Lemma removePadding_keeps (data : list N) c :
  c ∈ data → c ≠ base64_pad → c ∈ removePadding data.
Proof.
  intros Hin Hc. unfold removePadding.
  assert (c ∈ rev data) as Hrev by (by apply elem_of_rev_iff).
  destruct (rev data) as [|last front]; [done|].
  destruct (last =? base64_pad) eqn:Hlast; [|done].
  apply N.eqb_eq in Hlast. subst last.
  apply elem_of_cons in Hrev as [?|Hfront]; [done|].
  destruct front as [|before front']; [by apply elem_of_nil in Hfront|].
  destruct (before =? base64_pad) eqn:Hbefore.
  - apply N.eqb_eq in Hbefore. subst before.
    apply elem_of_cons in Hfront as [?|Hfront']; [done|].
    by apply elem_of_rev_iff.
  - by apply elem_of_rev_iff.
Qed.

Lemma base64_framing_length (bytes : list Byte.byte) :
  ∃ text,
    toBase64 bytes = Resolved text
    ∧ fromBase64 text = Resolved bytes
    ∧ length text = (4 * ((length bytes + 2) / 3))%nat
    ∧ (bytes ≠ [] → text ≠ []).
Proof.
  destruct (fromBase64_toBase64 bytes) as (text & Hto & Hfrom & _ & Hne).
  exists text. split; [done|]. split; [done|]. split; [|done].
  unfold toBase64, btoa in Hto. cbv zeta in Hto.
  destruct (forallb _ _); [|discriminate]. injection Hto as <-.
  by rewrite base64_length, length_map.
Qed.

(** ** Framing *)

(** X12: [fromBase64(toBase64(bytes))] is [bytes] for every byte array, and
    [toBase64] never throws.  Its text has 4 characters for every 3 bytes,
    rounded up, all of the base64 alphabet or the padding [=], and no other
    byte array has the same text. *)
Theorem base64_framing_round_trip (bytes : list Byte.byte) :
  ∃ text,
    toBase64 bytes = Resolved text
    ∧ fromBase64 text = Resolved bytes
    ∧ length text = (4 * ((length bytes + 2) / 3))%nat
    ∧ Forall (λ c, is_Some (base64_value c) ∨ c = base64_pad) text
    ∧ ∀ other, toBase64 other = Resolved text → other = bytes.
Proof.
  destruct (base64_framing_length bytes) as (text & Hto & Hfrom & Hlen & _).
  exists text. split; [done|]. split; [done|]. split; [done|].
  pose proof Hto as Hshape. unfold toBase64, btoa in Hshape. cbv zeta in Hshape.
  destruct (forallb _ _); [|discriminate]. injection Hshape as <-.
  split.
  - destruct (base64_body_values _ (Forall_to_N_lt bytes)) as [_ (values & Hvalues & _)].
    apply Forall_app. split.
    + eapply Forall_impl; [by eapply base64_values_alphabet|]. intros c Hc. by left.
    + unfold base64_padding.
      destruct (length _ mod 3)%nat as [|[|[|?]]]; repeat constructor; by right.
  - intros other Hother.
    destruct (fromBase64_toBase64 other) as (text' & Hto' & Hfrom' & _ & _).
    rewrite Hother in Hto'. injection Hto' as <-. congruence.
Qed.

Section EnvelopeMore.
Context `{Platform}.

(** X13: a payload with a character that is neither of the base64 alphabet,
    nor the padding [=], nor ASCII white space is refused: [fromBase64] throws
    InvalidCharacterError, and so does [decryptBodyWithKey] whatever the
    secret, before any key is derived. *)
Theorem foreign_character_is_refused (value addressKey : list N) (c : N) :
  c ∈ value →
  isAsciiWhitespace c = false → c ≠ base64_pad → base64_value c = None →
  fromBase64 value = Rejected InvalidCharacterError
  ∧ decryptBodyWithKey value addressKey = Rejected InvalidCharacterError.
Proof.
  intros Hin Hspace Hpad Hforeign.
  assert (fromBase64 value = Rejected InvalidCharacterError) as Hfrom.
  { unfold fromBase64, atob. cbv zeta.
    set (data := filter (λ c, isAsciiWhitespace c = false) value).
    assert (c ∈ data) as Hdata by (by apply list_elem_of_filter).
    set (stripped := if (length data mod 4 =? 0)%nat then removePadding data else data).
    assert (c ∈ stripped) as Hstripped.
    { subst stripped. destruct (_ =? 0)%nat; [by apply removePadding_keeps|done]. }
    destruct (_ =? 1)%nat; [done|].
    by rewrite (base64_values_foreign _ c). }
  split; [exact Hfrom|].
  unfold decryptBodyWithKey. destruct value as [|c0 rest]; [by apply elem_of_nil in Hin|].
  by rewrite Hfrom.
Qed.

(** X14: [encryptBodyWithKey] never throws.  Its payload is the empty string
    exactly when the body is; for a non-empty body the payload decodes to the
    nonce followed by the ciphertext, which is 16 bytes longer than the
    UTF-8 of the body, and has 4 characters for every 3 of these bytes,
    rounded up. *)
Theorem encryptBodyWithKey_always_resolves (iv : list Byte.byte) (body addressKey : list N) :
  ∃ payload,
    encryptBodyWithKey iv body addressKey = Resolved payload
    ∧ (payload = [] ↔ body = [])
    ∧ (body ≠ [] →
       ∃ cipher,
         fromBase64 payload = Resolved (iv ++ cipher)
         ∧ length cipher = (length (TextEncoder_encode body) + 16)%nat
         ∧ length payload =
             (4 * ((length iv + length (TextEncoder_encode body) + 16 + 2) / 3))%nat).
Proof.
  destruct body as [|c rest].
  { exists []. split; [done|]. split; [done|]. done. }
  set (body := c :: rest).
  set (cipher := aesGcmEncrypt (sha256 (TextEncoder_encode (toLowerCase addressKey)))
                   iv (TextEncoder_encode body)).
  assert (length cipher = (length (TextEncoder_encode body) + 16)%nat) as Hcipher
    by apply aesGcmEncrypt_length.
  destruct (base64_framing_length (iv ++ cipher)) as (payload & Hto & Hfrom & Hlen & Hne).
  exists payload. split.
  { unfold encryptBodyWithKey. cbn [body length Nat.eqb].
    rewrite deriveKey_resolves. exact Hto. }
  split.
  { split; [|done]. intros ->. exfalso. apply Hne; [|done].
    destruct cipher; [cbn in Hcipher; lia|]. by destruct iv. }
  intros _. exists cipher. split; [done|]. split; [done|].
  rewrite Hlen, length_app, Hcipher. f_equal. f_equal. lia.
Qed.

End EnvelopeMore.

Section EnvelopeKeys.
Context `{Platform}.

(** ** Keys *)

(** X16: [deriveKey] never throws: the 32 bytes of the digest are always a
    valid AES key, so [importKey]'s DataError cannot occur; and two secrets
    that are equal after [toLowerCase] derive the same key. *)
Theorem deriveKey_always_resolves (addressKey : list N) :
  ∃ key,
    deriveKey addressKey = Resolved key
    ∧ length key = 32%nat
    ∧ ∀ other, toLowerCase other = toLowerCase addressKey → deriveKey other = Resolved key.
Proof.
  eexists. split; [apply deriveKey_resolves|]. split; [apply sha256_length|].
  intros other Hother. by rewrite deriveKey_resolves, Hother.
Qed.

(** X15: the envelope does not see the case of the secret: for two secrets
    equal after [toLowerCase], a 12-byte nonce and a well-formed body not
    starting with U+FEFF, encrypting under either gives the same payload, and
    decrypting it under the other gives the body back. *)
Theorem envelope_ignores_case_of_secret (iv : list Byte.byte) (body key1 key2 : list N) :
  length iv = 12%nat →
  isWellFormed body = true → head body ≠ Some 0xFEFF →
  toLowerCase key1 = toLowerCase key2 →
  ∃ payload,
    encryptBodyWithKey iv body key1 = Resolved payload
    ∧ encryptBodyWithKey iv body key2 = Resolved payload
    ∧ decryptBodyWithKey payload key1 = Resolved body
    ∧ decryptBodyWithKey payload key2 = Resolved body.
Proof.
  intros Hiv Hwf Hbom Hcase.
  destruct (decide (body = [])) as [->|Hbody]; [by exists []|].
  destruct (decrypt_encrypt iv body key1 Hiv Hbody) as (payload & Henc1 & _ & _ & _ & Hdec1).
  destruct (decrypt_encrypt iv body key2 Hiv Hbody) as (payload2 & Henc2 & _ & _ & _ & Hdec2).
  assert (payload2 = payload) as ->.
  { revert Henc1 Henc2. unfold encryptBodyWithKey.
    destruct (length body =? 0)%nat; [congruence|].
    rewrite !deriveKey_resolves, Hcase. congruence. }
  rewrite TextDecoder_TextEncoder in Hdec1, Hdec2 by done.
  by exists payload.
Qed.

(** X17: a payload determines its body: if two well-formed bodies, neither
    starting with U+FEFF, have the same payload under one secret (whatever
    the two 12-byte nonces), they are the same body. *)
Theorem payload_determines_body (iv1 iv2 : list Byte.byte) (body1 body2 addressKey payload : list N) :
  length iv1 = 12%nat → length iv2 = 12%nat →
  isWellFormed body1 = true → head body1 ≠ Some 0xFEFF →
  isWellFormed body2 = true → head body2 ≠ Some 0xFEFF →
  encryptBodyWithKey iv1 body1 addressKey = Resolved payload →
  encryptBodyWithKey iv2 body2 addressKey = Resolved payload →
  body1 = body2.
Proof.
  intros Hiv1 Hiv2 Hwf1 Hbom1 Hwf2 Hbom2 Henc1 Henc2.
  assert (∀ iv body, length iv = 12%nat → isWellFormed body = true →
            head body ≠ Some 0xFEFF →
            encryptBodyWithKey iv body addressKey = Resolved payload →
            decryptBodyWithKey payload addressKey = Resolved body) as Hback.
  { intros iv body Hiv Hwf Hbom Henc.
    destruct (decide (body = [])) as [->|Hbody].
    - cbn in Henc. by injection Henc as <-.
    - destruct (decrypt_encrypt iv body addressKey Hiv Hbody)
        as (payload' & Henc' & _ & _ & _ & Hdec).
      rewrite Henc in Henc'. injection Henc' as <-.
      by rewrite TextDecoder_TextEncoder in Hdec. }
  pose proof (Hback iv1 body1 Hiv1 Hwf1 Hbom1 Henc1) as H1.
  pose proof (Hback iv2 body2 Hiv2 Hwf2 Hbom2 Henc2) as H2.
  congruence.
Qed.

End EnvelopeKeys.

(** * The document list of the client *)

Section DocumentAppFacts.
Variable Number : N → N.

Lemma Set_add_spec x ids y :
  y ∈ Set_add x ids ↔ y ∈ ids ∨ y = x.
Proof.
  unfold Set_add. case_bool_decide as Hin.
  - split; [by left|]. intros [?| ->]; done.
  - by rewrite elem_of_app, list_elem_of_singleton.
Qed.

Lemma Set_add_NoDup x ids : NoDup ids → NoDup (Set_add x ids).
Proof.
  intros Hnodup. unfold Set_add. case_bool_decide as Hin; [done|].
  apply NoDup_app. split; [done|]. split; [|apply NoDup_singleton].
  intros y Hy Hx%list_elem_of_singleton. by subst y.
Qed.

Lemma foldl_Set_add (l ids : list N) y :
  y ∈ foldl (λ acc id, Set_add (Number id) acc) ids l ↔
    y ∈ ids ∨ ∃ id, id ∈ l ∧ y = Number id.
Proof.
  revert ids. induction l as [|id rest IH]; intros ids; cbn [foldl].
  - split; [by left|]. intros [?|(id & Hin & _)]; [done|]. by apply elem_of_nil in Hin.
  - rewrite IH, Set_add_spec. split.
    + intros [[?| ->]|(id' & Hin & ->)].
      * by left.
      * right. exists id. split; [by left|done].
      * right. exists id'. split; [by right|done].
    + intros [?|(id' & Hin & ->)]; [by left; left|].
      apply elem_of_cons in Hin as [->|Hin]; [by left; right|].
      right. by exists id'.
Qed.

Lemma addAll_spec data ids y :
  y ∈ addAll Number data ids ↔
    y ∈ ids ∨ ∃ l id, data = Some l ∧ id ∈ l ∧ y = Number id.
Proof.
  destruct data as [items|]; cbn [addAll].
  - rewrite foldl_Set_add. split.
    + intros [?|(id & Hin & ->)]; [by left|]. right. by exists items, id.
    + intros [?|(l & id & [= <-] & Hin & ->)]; [by left|]. right. by exists id.
  - split; [by left|]. by intros [?|(l & id & ? & _)].
Qed.

Lemma addAll_NoDup data ids : NoDup ids → NoDup (addAll Number data ids).
Proof.
  destruct data as [l|]; cbn [addAll]; [|done].
  revert ids. induction l as [|id rest IH]; intros ids Hnodup; cbn [foldl]; [done|].
  by apply IH, Set_add_NoDup.
Qed.

Lemma sorted_NoDup_strict (l : list N) :
  StronglySorted N.le l → NoDup l → StronglySorted N.lt l.
Proof.
  induction 1 as [|x l Hl IH Hx]; intros Hnodup; [constructor|].
  apply NoDup_cons in Hnodup as [Hnotin Hnodup].
  constructor; [by apply IH|].
  apply Forall_forall. intros y Hy.
  rewrite Forall_forall in Hx. specialize (Hx y Hy).
  assert (x ≠ y) by (intros ->; done). lia.
Qed.

Lemma docIds_spec (ownedData sharedData : option (list N)) :
  StronglySorted N.lt (docIds Number ownedData sharedData)
  ∧ ∀ x, x ∈ docIds Number ownedData sharedData ↔
      (∃ l id, ownedData = Some l ∧ id ∈ l ∧ x = Number id)
      ∨ (∃ l id, sharedData = Some l ∧ id ∈ l ∧ x = Number id).
Proof.
  unfold docIds. cbv zeta.
  set (ids := addAll Number sharedData (addAll Number ownedData [])).
  assert (NoDup ids) as Hnodup by (apply addAll_NoDup, addAll_NoDup, NoDup_nil_2).
  split.
  { apply sorted_NoDup_strict.
    - apply (StronglySorted_merge_sort N.le).
    - by rewrite merge_sort_Permutation. }
  intros x. rewrite merge_sort_Permutation. subst ids.
  rewrite !addAll_spec. rewrite elem_of_nil. tauto.
Qed.

(** X18: the client's document list [docIds] is strictly increasing, so
    each document shows once even when it is both owned by and shared with
    the account, and it holds exactly the numbers of the ids of the two
    lists; a list that is not loaded yet ([undefined]) adds nothing. *)
Theorem docIds_sorted_union (ownedData sharedData : option (list N)) :
  StronglySorted N.lt (docIds Number ownedData sharedData)
  ∧ (∀ x, x ∈ docIds Number ownedData sharedData ↔
       (∃ l id, ownedData = Some l ∧ id ∈ l ∧ x = Number id)
       ∨ (∃ l id, sharedData = Some l ∧ id ∈ l ∧ x = Number id))
  ∧ docIds Number None sharedData = docIds Number sharedData None.
Proof.
  destruct (docIds_spec ownedData sharedData) as [Hsorted Hmem].
  split; [done|]. split; [done|]. reflexivity.
Qed.

End DocumentAppFacts.

(** * The client's list against the registry *)

Section ListedDocuments.
Context `{Engine}.

(** X19: every document the client lists can be loaded and edited.  In a
    reachable state, for an account other than the zero address whose owned
    and shared ids [Number] converts exactly, each entry of [docIds] is the id
    of a document that [getDocument] returns and that the account, as owner or
    grantee, can update. *)
Theorem listed_documents_load_and_edit (Number : N → N) s (account : N) msg :
  reachable s →
  account ≠ address0 →
  msg_sender msg = account →
  (∀ documentId, documentId ∈ ownedOf s account ++ sharedOf s account →
     Number documentId = documentId) →
  ∃ owned shared,
    view (getOwnedDocumentIds account) s = Ok owned
    ∧ view (getSharedDocumentIds account) s = Ok shared
    ∧ ∀ documentId, documentId ∈ docIds Number (Some owned) (Some shared) →
        (∃ doc, view (getDocument documentId) s = Ok doc)
        ∧ ∀ body, (transact msg (UpdateDocumentBody documentId body) s).2 = Succeeded.
Proof.
  intros Hreach Haccount Hsender Hexact.
  pose proof (reachable_Invariant _ Hreach) as Hinv.
  pose proof (reachable_IndexInvariant _ Hreach) as Hidx.
  exists (ownedOf s account), (sharedOf s account).
  split; [reflexivity|]. split; [reflexivity|].
  intros documentId Hlisted.
  apply (docIds_spec Number) in Hlisted.
  assert (exists_ s documentId = true
          ∧ permitted s (accessKey (documentAt s documentId)) (msg_sender msg) = true)
    as [Hex Hperm].
  { rewrite Hsender. unfold permitted. rewrite bool_decide_eq_true.
    destruct Hlisted as [(l & id & [= <-] & Hin & ->)|(l & id & [= <-] & Hin & ->)].
    - rewrite Hexact by (apply elem_of_app; by left).
      apply (idx_owned _ Hidx) in Hin as (doc & Hdoc & Howner).
      assert (documentAt s id = doc) as Hat by (unfold documentAt; by rewrite Hdoc).
      rewrite Hat. split.
      + unfold exists_. rewrite Hat, Howner. apply negb_true_iff. by apply N.eqb_neq.
      + rewrite <- Howner. apply (inv_owner_permitted _ Hinv _ _ Hdoc).
    - rewrite Hexact by (apply elem_of_app; by right).
      assert (isSharedWith s id account = true) as Hflag.
      { pose proof (inv_shared _ Hinv id account) as Hcount.
        destruct (isSharedWith s id account); [done|].
        apply list_elem_of_In, (count_occ_In N.eq_dec) in Hin. lia. }
      destruct (idx_shared _ Hidx account id Hflag) as (? & _ & ?). done. }
  split; [exists (documentAt s documentId); by apply getDocument_view|].
  intros body. by rewrite update_succeeds.
Qed.

End ListedDocuments.

(** * The added theorems at the test scenarios *)

Lemma afterScenario_reachable : reachable afterScenario.
Proof. exists scenario. reflexivity. Defined.

Lemma createDocument_success_witness :
  ∃ s',
    transact (at_block bob 2) (CreateDocument "Notes" "" 78 someProof) genesis
      = (s', Created 2)
    ∧ view (getOwnedDocumentIds bob) s' = Ok [2]
    ∧ view totalDocuments s' = Ok 2.
Proof.
  destruct (createDocument_success (at_block bob 2) "Notes" "" 78 someProof 78 genesis
              genesis_reachable)
    as (s' & total & owned & Htotal & Howned & Htx & Hcount & _ & Hnew & _).
  - discriminate.
  - discriminate.
  - reflexivity.
  - vm_compute. discriminate.
  - vm_compute in Htotal, Howned. injection Htotal as <-. injection Howned as <-.
    exists s'. split; [exact Htx|]. split; [exact Hnew|exact Hcount].
Defined.

Lemma documents_are_1_to_total_witness :
  ∃ total,
    view totalDocuments afterScenario = Ok total
    ∧ ∀ documentId,
        view (documentExists documentId) afterScenario
          = Ok (bool_decide (1 ≤ documentId ≤ total))
        ∧ (1 ≤ documentId ≤ total →
             ∃ doc, view (getDocument documentId) afterScenario = Ok doc)
        ∧ (¬ (1 ≤ documentId ≤ total) →
             view (getDocument documentId) afterScenario
               = Reverted (Error "Document not found")).
Proof.
  apply (documents_are_1_to_total scenario).
  repeat constructor; discriminate.
Defined.

Lemma owned_index_matches_records_witness :
  reachable afterScenario
  ∧ ∃ owned,
      view (getOwnedDocumentIds bob) afterScenario = Ok owned
      ∧ StronglySorted N.lt owned
      ∧ (2 ∈ owned ↔
           ∃ doc, view (getDocument 2) afterScenario = Ok doc ∧ owner doc = bob).
Proof.
  split; [exact afterScenario_reachable|].
  destruct (owned_index_matches_records afterScenario bob afterScenario_reachable)
    as (owned & Hview & Hsorted & _ & Hget).
  exists owned. split; [exact Hview|]. split; [exact Hsorted|].
  apply Hget. discriminate.
Defined.

Lemma shared_index_is_sound_witness :
  reachable afterScenario
  ∧ ∃ shared,
      view (getSharedDocumentIds bob) afterScenario = Ok shared
      ∧ NoDup shared
      ∧ (1 ∈ shared →
           (transact (at_block bob 9) (UpdateDocumentBody 1 "again") afterScenario).2
             = Succeeded).
Proof.
  split; [exact afterScenario_reachable|].
  destruct (shared_index_is_sound afterScenario bob afterScenario_reachable)
    as (shared & Hview & Hnodup & Hall).
  exists shared. split; [exact Hview|]. split; [exact Hnodup|].
  intros Hin. destruct (Hall 1 Hin) as (_ & _ & Hcalls).
  destruct (Hcalls (at_block bob 9)) as [Hupdate _]; [reflexivity|]. apply Hupdate.
Defined.

Lemma owner_keeps_access_witness :
  reachable afterScenario
  ∧ view (documentExists 1) afterScenario = Ok true
  ∧ (transact (at_block ownerA 9) (UpdateDocumentBody 1 "mine") afterScenario).2
      = Succeeded.
Proof.
  split; [exact afterScenario_reachable|].
  split; [vm_compute; reflexivity|].
  destruct (owner_keeps_access afterScenario 1 (at_block ownerA 9) afterScenario_reachable)
    as (_ & Hupdate & _).
  - vm_compute. reflexivity.
  - vm_compute. reflexivity.
  - apply Hupdate.
Defined.

Lemma getDocument_record_is_well_formed_witness :
  reachable afterScenario
  ∧ ∃ doc, view (getDocument 1) afterScenario = Ok doc
      ∧ name doc ≠ "" ∧ owner doc ≠ address0.
Proof.
  split; [exact afterScenario_reachable|].
  destruct (getDocument_record_is_well_formed afterScenario 1 (documentAt afterScenario 1)
              afterScenario_reachable) as (Hname & Howner & _).
  - vm_compute. reflexivity.
  - exists (documentAt afterScenario 1).
    split; [vm_compute; reflexivity|]. split; [exact Hname|exact Howner].
Defined.

Lemma body_changes_only_by_permitted_update_witness :
  reachable genesis
  ∧ view (documentExists 1) genesis = Ok true
  ∧ ∃ newEncryptedBody,
      UpdateDocumentBody 1 "v2" = UpdateDocumentBody 1 newEncryptedBody
      ∧ view (FHE_isSenderAllowed (at_block ownerA 2)
                (accessKey (documentAt genesis 1))) genesis = Ok true
      ∧ (transact (at_block ownerA 2) (UpdateDocumentBody 1 "v2") genesis).2 = Succeeded
      ∧ encryptedBody
          (documentAt (transact (at_block ownerA 2) (UpdateDocumentBody 1 "v2") genesis).1 1)
        = newEncryptedBody.
Proof.
  split; [exact genesis_reachable|].
  split; [vm_compute; reflexivity|].
  apply (body_changes_only_by_permitted_update genesis (at_block ownerA 2)
           (UpdateDocumentBody 1 "v2") 1 genesis_reachable).
  - vm_compute. reflexivity.
  - vm_compute. discriminate.
Defined.

Lemma permission_comes_from_a_holder_witness :
  bob = bob
  ∧ 77 = accessKey (documentAt genesis 1)
  ∧ view (documentExists 1) genesis = Ok true
  ∧ view (FHE_isSenderAllowed (at_block ownerA 2) 77) genesis = Ok true
  ∧ (transact (at_block ownerA 2) (GrantAccess 1 bob) genesis).2 = Succeeded.
Proof.
  assert ((77, bob) ∈ acl (transact (at_block ownerA 2) (GrantAccess 1 bob) genesis).1)
    as Hafter by (apply (bool_decide_unpack _); vm_compute; exact I).
  assert ((77, bob) ∉ acl genesis) as Hbefore
    by (apply (bool_decide_eq_false_1 _); vm_compute; reflexivity).
  exact (permission_comes_from_a_holder genesis (at_block ownerA 2) (GrantAccess 1 bob)
           77 bob Hafter Hbefore).
Defined.

Lemma createdAt_before_updatedAt_witness :
  timestampsFrom 0 scenario
  ∧ ∃ doc, view (getDocument 1) afterScenario = Ok doc
      ∧ createdAt doc ≤ updatedAt doc ∧ updatedAt doc ≤ latestTimestamp 0 scenario.
Proof.
  assert (timestampsFrom 0 scenario) as Hts by (vm_compute; intuition discriminate).
  split; [exact Hts|].
  eexists. split; [vm_compute; reflexivity|].
  eapply (createdAt_before_updatedAt scenario 1 _ Hts).
  vm_compute. reflexivity.
Defined.

Lemma foreign_character_is_refused_witness :
  fromBase64 (js "not base64!") = Rejected InvalidCharacterError
  ∧ decryptBodyWithKey (js "not base64!") (js "0xabc") = Rejected InvalidCharacterError.
Proof.
  apply (foreign_character_is_refused (js "not base64!") (js "0xabc") 33).
  - vm_compute. repeat (first [left|right]).
  - reflexivity.
  - discriminate.
  - reflexivity.
Defined.

Lemma envelope_ignores_case_of_secret_witness :
  ∃ payload,
    encryptBodyWithKey nonceA (js "hello") (js "0xAbC") = Resolved payload
    ∧ encryptBodyWithKey nonceA (js "hello") (js "0xABC") = Resolved payload
    ∧ decryptBodyWithKey payload (js "0xAbC") = Resolved (js "hello")
    ∧ decryptBodyWithKey payload (js "0xABC") = Resolved (js "hello").
Proof.
  apply (envelope_ignores_case_of_secret nonceA (js "hello") (js "0xAbC") (js "0xABC")).
  - reflexivity.
  - reflexivity.
  - discriminate.
  - reflexivity.
Defined.

Lemma payload_determines_body_witness :
  js "hello" = js "hello".
Proof.
  apply (payload_determines_body nonceA nonceA (js "hello") (js "hello") (js "0xAbC")
           (js "CgoKCgoKCgoKCgoKaGVsbG8weGFiYwAAAAAAAAAAAAAA")).
  - reflexivity.
  - reflexivity.
  - reflexivity.
  - discriminate.
  - reflexivity.
  - discriminate.
  - vm_compute. reflexivity.
  - vm_compute. reflexivity.
Defined.

Lemma listed_documents_load_and_edit_witness :
  reachable afterScenario
  ∧ ∃ owned shared,
      view (getOwnedDocumentIds ownerA) afterScenario = Ok owned
      ∧ view (getSharedDocumentIds ownerA) afterScenario = Ok shared
      ∧ ∀ documentId, documentId ∈ docIds (λ id, id) (Some owned) (Some shared) →
          (∃ doc, view (getDocument documentId) afterScenario = Ok doc)
          ∧ ∀ body,
              (transact (at_block ownerA 9) (UpdateDocumentBody documentId body)
                 afterScenario).2 = Succeeded.
Proof.
  split; [exact afterScenario_reachable|].
  apply (listed_documents_load_and_edit (λ id, id) afterScenario ownerA (at_block ownerA 9)
           afterScenario_reachable).
  - discriminate.
  - reflexivity.
  - reflexivity.
Defined.

(** The list of an account that owns document 1 and has it shared as well. *)
Example docIds_of_scenario :
  view (getOwnedDocumentIds ownerA) afterScenario = Ok [1]
  ∧ view (getSharedDocumentIds ownerA) afterScenario = Ok [1]
  ∧ docIds (λ id, id) (Some [1]) (Some [1]) = [1]
  ∧ docIds (λ id, id) (Some [3; 1]) (Some [2; 3]) = [1; 2; 3]
  ∧ docIds (λ id, id) None (Some [2]) = [2].
Proof. vm_compute. repeat split; reflexivity. Qed.

Example events_of_scenario :
  logs afterScenario =
    [ DocumentCreated 1 ownerA "Genesis"; AccessGranted 1 bob; AccessGranted 1 ownerA;
      DocumentUpdated 1 bob "ciphertextX"; DocumentCreated 2 bob "Notes" ].
Proof. vm_compute. reflexivity. Qed.
